(** * Video downloader backend (Node.js / Express): model and properties

    A shallow embedding of [src/Node.js]: the four POST routes and the
    health route, with the response object of Express as explicit state,
    thrown exceptions as a result type, and the calls to the external
    libraries ([ytdl], [instagramGetUrl], [fetch]) taken from a [World]
    of oracles and recorded in a call log. *)

From Stdlib Require Import ZArith Ascii String.
From stdpp Require Import base option list sorting gmap strings.

Local Open Scope Z_scope.

(** ** JavaScript strings and values *)

(** A JavaScript string is a sequence of UTF-16 code units. *)
Abbreviation jsstring := (list Z).

(** Source literals are ASCII; [js "abc"] is the code-unit sequence. *)
Definition js (s : string) : jsstring :=
  (fun c => Z.of_nat (nat_of_ascii c)) <$> list_ascii_of_string s.

(** The double-quote character, written by code unit. *)
Definition dquote : Z := 34.

(** JSON numbers are doubles. The handlers only test them for truthiness
    and forward them, so a number is kept as mantissa and exponent
    (value [m * 2^e]) or an infinity. *)
Inductive number :=
| Finite (mantissa exponent : Z)
| Infinite (negative : bool).

Definition number_is_zero (n : number) : bool :=
  match n with
  | Finite m _ => m =? 0
  | Infinite _ => false
  end.

#[warnings="-register-all"] Inductive JsValue :=
| JUndefined
| JNull
| JBool (b : bool)
| JNum (n : number)
| JStr (s : jsstring)
| JArr (items : list JsValue)
| JObj (fields : list (string * JsValue)).

(** [!v] is [negb (truthy v)]. *)
Definition truthy (v : JsValue) : bool :=
  match v with
  | JUndefined | JNull => false
  | JBool b => b
  | JNum n => negb (number_is_zero n)
  | JStr s => negb (bool_decide (s = []))
  | JArr _ | JObj _ => true
  end.

(** ** Quality options of the YouTube info endpoint *)

(** One element of [qualities] (Node.js:31-40). *)
Record Quality := {
  itag : Z;
  quality : jsstring;
  format : jsstring;
  size : jsstring;
  hasAudio : bool;
  hasVideo : bool
}.

Definition is_digit (c : Z) : bool := (48 <=? c) && (c <=? 57).

(** [\d+p] anchored at the head of [s]: one or more digits, as many as
    possible, then the letter p (code unit 112); the captured digits. *)
Fixpoint digits_then_p (s : jsstring) : option jsstring :=
  match s with
  | [] => None
  | c :: rest =>
      if is_digit c then
        match digits_then_p rest with
        | Some ds => Some (c :: ds)
        | None =>
            match rest with
            | c' :: _ => if c' =? 112 then Some [c] else None
            | [] => None
            end
        end
      else None
  end.

(** [q.quality.match(/(\d+)p/)]: group 1 of the leftmost match. *)
Fixpoint regex_match (s : jsstring) : option jsstring :=
  match s with
  | [] => None
  | _ :: rest =>
      match digits_then_p s with
      | Some ds => Some ds
      | None => regex_match rest
      end
  end.

(** The mathematical value of a run of decimal digits. *)
Definition decimal_value (ds : jsstring) : Z :=
  fold_left (fun acc c => 10 * acc + (c - 48)) ds 0.

(** Stable insertion: [x] stood before every element of [l] in the
    array; it moves behind [y] only when the comparator is positive. *)
Fixpoint insert_by {A} (cmp : A → A → Z) (x : A) (l : list A) : list A :=
  match l with
  | [] => [x]
  | y :: t => if 0 <? cmp x y then y :: insert_by cmp x t else x :: l
  end.

(** [Array.prototype.sort(cmp)]. The language requires the sort to be
    stable, so for a consistent comparator the result is the one
    stably sorted permutation ([array_sort_unique] below), which
    insertion from the right builds. *)
Definition array_sort {A} (cmp : A → A → Z) (l : list A) : list A :=
  foldr (insert_by cmp) [] l.

(** [self.findIndex(p)]: index of the first element satisfying [p],
    or -1. *)
Fixpoint findIndex {A} (p : A → bool) (l : list A) : Z :=
  match l with
  | [] => -1
  | x :: t =>
      if p x then 0
      else let i := findIndex p t in if i <? 0 then -1 else i + 1
  end.

(** [self.filter((x, index, self) => p x index self)], the callback
    seeing the element, its index and the whole array. *)
Fixpoint filter_from {A} (p : A → Z → list A → bool) (self : list A)
    (i : Z) (l : list A) : list A :=
  match l with
  | [] => []
  | x :: t =>
      if p x i self then x :: filter_from p self (i + 1) t
      else filter_from p self (i + 1) t
  end.

Definition array_filter {A} (p : A → Z → list A → bool) (l : list A) : list A :=
  filter_from p l 0 l.

(** Node.js:43-45. *)
Definition uniqueQualities (qualities : list Quality) : list Quality :=
  array_filter
    (fun quality0 index self =>
       index =? findIndex (fun q => bool_decide (quality q = quality quality0)) self)
    qualities.

Section Resolution.
(** [parseInt] returns a double: exact below 2^53, rounded above (and
    an infinity beyond the double range, which compares as a largest
    value and ties with itself, as the sort treats a NaN difference
    as 0). The rounding is kept abstract as a monotone map on Z. *)
Variable to_double : Z → Z.

(** Node.js:54-57. *)
Definition getResolution (q : Quality) : Z :=
  match regex_match (quality q) with
  | Some ds => to_double (decimal_value ds)
  | None => 0
  end.

(** Node.js:53-59. *)
Definition sortQualities (l : list Quality) : list Quality :=
  array_sort (fun a b => getResolution b - getResolution a) l.
End Resolution.

(** The rounding of [parseInt]: monotone, and exact on safe integers. *)
Record double_rounding (to_double : Z → Z) : Prop := {
  to_double_mono : ∀ x y, x ≤ y → to_double x ≤ to_double y;
  to_double_exact : ∀ x, 0 ≤ x < 2 ^ 53 → to_double x = x
}.

(** ** String helpers of the handlers *)

(** [s.startsWith(p)] on code units. *)
Fixpoint starts_with (p s : jsstring) : bool :=
  match p, s with
  | [], _ => true
  | _ :: _, [] => false
  | a :: p', b :: s' => (a =? b) && starts_with p' s'
  end.

(** [s.includes(needle)]: the needle occurs at some position. *)
Fixpoint includes (needle s : jsstring) : bool :=
  starts_with needle s ||
  match s with
  | [] => false
  | _ :: rest => includes needle rest
  end.

(** [\w]: ASCII letters, digits and the underscore. The [i] flag adds
    nothing here: without the [u] flag no other code unit folds onto
    one of these. *)
Definition is_word (c : Z) : bool :=
  ((97 <=? c) && (c <=? 122)) || ((65 <=? c) && (c <=? 90))
  || is_digit c || (c =? 95).

(** [\s]: the white space and line terminator code units. *)
Definition is_space (c : Z) : bool :=
  ((9 <=? c) && (c <=? 13)) || (c =? 32) || (c =? 160) || (c =? 5760)
  || ((8192 <=? c) && (c <=? 8202)) || (c =? 8232) || (c =? 8233)
  || (c =? 8239) || (c =? 8287) || (c =? 12288) || (c =? 65279).

(** [title.replace(/[^\w\s]/gi, '')] (Node.js:83): every code unit
    that matches the negated class is deleted. *)
Definition sanitize (title : jsstring) : jsstring :=
  filter (fun c => is_word c || is_space c = true) title.

(** ** Thrown values *)

(** Faults raised by the engine or by Node rather than by a library. *)
Inductive Fault :=
| NotDestructurable      (* const {..} = undefined *)
| NotAFunction           (* url.includes is not a function *)
| UndefinedProperty      (* reading .url of undefined *)
| HeadersAlreadySent     (* ERR_HTTP_HEADERS_SENT *)
| InvalidHeaderChar.     (* ERR_INVALID_CHAR *)

(** What a [catch] receives. The libraries reject with error objects,
    so [error.message] is always readable (and may be undefined). *)
Inductive Thrown :=
| Rejected (message : JsValue)   (* a library error object and its .message *)
| EngineError (f : Fault)
| NewError (msg : jsstring).     (* throw new Error(msg) *)

(** ** The response object *)

Inductive Payload :=
| JsonBody (v : JsValue)
| Bytes (b : list Z).

(** The part of Express's [res] the handlers touch. [headers] holds the
    headers set by [res.header] and the content type [res.json] adds;
    [written] is what went out on the wire, in order. *)
Record Response := {
  statusCode : Z;
  headers : gmap string jsstring;
  headersSent : bool;
  written : list Payload;
  finished : bool
}.

Definition fresh_response : Response :=
  {| statusCode := 200; headers := ∅; headersSent := false;
     written := []; finished := false |}.

(** Calls that leave the process, and console output, in order. *)
Inductive Effect :=
| CallGetInfo (url : JsValue)
| CallYtdl (url quality : JsValue)
| CallInstagramGetUrl (url : JsValue)
| CallFetch (target : JsValue)
| CallArrayBuffer
| ConsoleError (label : string) (e : Thrown).

Record HState := { res : Response; effects : list Effect }.

Definition fresh : HState := {| res := fresh_response; effects := [] |}.

(** ** Handler monad: state and exceptions *)

Inductive Result (A : Type) :=
| Ok (a : A)
| Throw (e : Thrown).
Arguments Ok {A} a.
Arguments Throw {A} e.

Definition M (A : Type) : Type := HState → Result A * HState.

#[global] Instance M_ret : MRet M := fun A a st => (Ok a, st).
#[global] Instance M_bind : MBind M := fun A B k m st =>
  match m st with
  | (Ok a, st') => k a st'
  | (Throw e, st') => (Throw e, st')
  end.

#[global] Instance M_fmap : FMap M := fun A B f m st =>
  match m st with
  | (Ok a, st') => (Ok (f a), st')
  | (Throw e, st') => (Throw e, st')
  end.

Definition throw {A} (e : Thrown) : M A := fun st => (Throw e, st).

(** [try { m } catch (error) { h error }]. *)
Definition try_catch {A} (m : M A) (h : Thrown → M A) : M A := fun st =>
  match m st with
  | (Ok a, st') => (Ok a, st')
  | (Throw e, st') => h e st'
  end.

Definition get_res : M Response := fun st => (Ok (res st), st).
Definition put_res (r : Response) : M unit := fun st =>
  (Ok tt, {| res := r; effects := effects st |}).
Definition emit (e : Effect) : M unit := fun st =>
  (Ok tt, {| res := res st; effects := effects st ++ [e] |}).

(** [await p]: a resolved promise yields its value, a rejected one
    throws at the await. *)
Definition await {A} (p : Thrown + A) : M A :=
  match p with
  | inl e => throw e
  | inr a => mret a
  end.

(** ** Express operations *)

(** [res.status(code)] only stores the code. *)
Definition res_status (code : Z) : M unit :=
  r ← get_res;
  put_res {| statusCode := code; headers := headers r;
             headersSent := headersSent r; written := written r;
             finished := finished r |}.

(** Node accepts in a header value only TAB, 0x20-0x7e and 0x80-0xff. *)
Definition valid_header_char (c : Z) : bool :=
  (c =? 9) || ((32 <=? c) && (c <=? 126)) || ((128 <=? c) && (c <=? 255)).

(** [res.header(name, value)]. *)
Definition res_header (name : string) (value : jsstring) : M unit :=
  r ← get_res;
  if headersSent r then throw (EngineError HeadersAlreadySent)
  else if negb (forallb valid_header_char value) then
    throw (EngineError InvalidHeaderChar)
  else
    put_res {| statusCode := statusCode r;
               headers := <[name := value]> (headers r);
               headersSent := headersSent r; written := written r;
               finished := finished r |}.

(** The content type [res.json] leaves: its own when none was set,
    else the one set with the charset appended. *)
Definition json_content_type (old : option jsstring) : jsstring :=
  match old with
  | None => js "application/json; charset=utf-8"
  | Some t => t ++ js "; charset=utf-8"
  end.

(** [res.json(body)]: sets the content type, which Node refuses once
    the headers are out, then sends head and body and ends. *)
Definition res_json (body : JsValue) : M unit :=
  r ← get_res;
  if headersSent r then throw (EngineError HeadersAlreadySent)
  else
    put_res {| statusCode := statusCode r;
               headers := <["Content-Type" :=
                            json_content_type (headers r !! "Content-Type")]>
                            (headers r);
               headersSent := true;
               written := written r ++ [JsonBody body];
               finished := true |}.

(** [res.send(buffer)]: head and body in one go, then the end. *)
Definition res_send (b : list Z) : M unit :=
  r ← get_res;
  if headersSent r then throw (EngineError HeadersAlreadySent)
  else
    put_res {| statusCode := statusCode r; headers := headers r;
               headersSent := true; written := written r ++ [Bytes b];
               finished := true |}.

(** One chunk arriving through [videoStream.pipe(res)]: the first
    write flushes the head. *)
Definition res_write (b : list Z) : M unit :=
  r ← get_res;
  put_res {| statusCode := statusCode r; headers := headers r;
             headersSent := true; written := written r ++ [Bytes b];
             finished := finished r |}.

(** The source stream ended: [pipe] ends the response. *)
Definition res_end : M unit :=
  r ← get_res;
  put_res {| statusCode := statusCode r; headers := headers r;
             headersSent := true; written := written r;
             finished := true |}.

(** ** The external libraries *)

(** A format as [ytdl.getInfo] reports it (the fields the handler reads). *)
Record Format := {
  fmt_itag : Z;
  fmt_qualityLabel : option jsstring;     (* null for some formats *)
  fmt_quality : jsstring;
  fmt_container : jsstring;
  fmt_contentLength : option jsstring;
  fmt_hasAudio : bool;
  fmt_hasVideo : bool
}.

Record VideoDetails := {
  title : jsstring;
  thumbnails : list jsstring;             (* the .url of each thumbnail *)
  lengthSeconds : jsstring;
  author_name : jsstring
}.

Record VideoInfo := { formats : list Format; videoDetails : VideoDetails }.

(** What [instagramGetUrl] resolves to, when it resolves to an object. *)
Record InstagramResult := {
  url_list : option (list jsstring);
  thumbnail : JsValue
}.

(** The [Response] of [fetch]. *)
Record FetchResponse := {
  ok : bool;
  arrayBuffer : Thrown + list Z
}.

(** The readable stream [ytdl(url, options)] returns: the chunks it
    emits and how it finishes. *)
Inductive StreamFinish :=
| StreamEnds
| StreamErrors (e : Thrown)
| StreamStalls.

Record Stream := { chunks : list (list Z); finish : StreamFinish }.

(** Everything the handlers obtain from outside the file. *)
Record World := {
  validateURL : JsValue → bool;
  getInfo : JsValue → Thrown + VideoInfo;
  filterFormats : list Format → list Format;   (* the 'videoandaudio' filter *)
  ytdl : JsValue → JsValue → Stream;
  instagramGetUrl : JsValue → Thrown + option InstagramResult;
  fetch : JsValue → Thrown + FetchResponse;
  parseInt_double : Z → Z;                     (* rounding of parseInt *)
  size_label : jsstring → jsstring;
      (* `${(parseInt(contentLength) / (1024 * 1024)).toFixed(2)} MB` *)
  fault_message : Fault → jsstring             (* .message of engine errors *)
}.

(** ** Request bodies *)

Fixpoint assoc (k : string) (fields : list (string * JsValue)) : JsValue :=
  match fields with
  | [] => JUndefined
  | (k', v) :: rest => if bool_decide (k = k') then v else assoc k rest
  end.

(** [req.body.k] under the destructuring [const { k } = req.body]. *)
Definition property (k : string) (body : JsValue) : JsValue :=
  match body with
  | JObj fields => assoc k fields
  | _ => JUndefined
  end.

(** [const { .. } = req.body] throws on undefined and null. *)
Definition destructure (body : JsValue) : M unit :=
  match body with
  | JUndefined | JNull => throw (EngineError NotDestructurable)
  | _ => mret tt
  end.

(** [error.message]. *)
Definition error_message (w : World) (e : Thrown) : JsValue :=
  match e with
  | Rejected m => m
  | EngineError f => JStr (fault_message w f)
  | NewError m => JStr m
  end.

(** [a || b] on values. *)
Definition js_or (a b : JsValue) : JsValue := if truthy a then a else b.

(** [x === s] for a string [s]: only the same string is equal. *)
Definition is_string (s : jsstring) (x : JsValue) : bool :=
  match x with
  | JStr t => bool_decide (t = s)
  | _ => false
  end.

(** [url.includes('instagram.com')]: a string searches for the
    substring, an array for an equal element, and nothing else parsed
    from JSON has a callable [includes]. *)
Definition value_includes (v : JsValue) (needle : jsstring) : M bool :=
  match v with
  | JStr s => mret (includes needle s)
  | JArr items => mret (existsb (is_string needle) items)
  | _ => throw (EngineError NotAFunction)
  end.

(** ** POST /api/youtube/info (Node.js:17-69) *)

(** Node.js:31-40. *)
Definition quality_of_format (w : World) (f : Format) : Quality :=
  {| itag := fmt_itag f;
     quality :=
       match fmt_qualityLabel f with
       | Some l => if bool_decide (l = []) then fmt_quality f else l
       | None => fmt_quality f
       end;
     format := fmt_container f;
     size :=
       match fmt_contentLength f with
       | Some n => if bool_decide (n = []) then js "Unknown" else size_label w n
       | None => js "Unknown"
       end;
     hasAudio := fmt_hasAudio f;
     hasVideo := fmt_hasVideo f |}.

Definition quality_json (q : Quality) : JsValue :=
  JObj [("itag", JNum (Finite (itag q) 0)); ("quality", JStr (quality q));
        ("format", JStr (format q)); ("size", JStr (size q));
        ("hasAudio", JBool (hasAudio q)); ("hasVideo", JBool (hasVideo q))].

(** The qualities the endpoint reports for a list of formats. *)
Definition youtube_qualities (w : World) (fs : list Format) : list Quality :=
  sortQualities (parseInt_double w)
    (uniqueQualities (quality_of_format w <$> filterFormats w fs)).

(** [thumbnails[thumbnails.length - 1].url]. *)
Definition last_thumbnail (d : VideoDetails) : M jsstring :=
  match last (thumbnails d) with
  | Some u => mret u
  | None => throw (EngineError UndefinedProperty)
  end.

Definition invalid_youtube_url : JsValue :=
  JObj [("error", JStr (js "Invalid YouTube URL"))].

Definition youtube_info_try (w : World) (body : JsValue) : M unit :=
  destructure body;;
  let url := property "url" body in
  if negb (truthy url) || negb (validateURL w url) then
    res_status 400;; res_json invalid_youtube_url
  else
    emit (CallGetInfo url);;
    info ← await (getInfo w url);
    let d := videoDetails info in
    thumb ← last_thumbnail d;
    res_json (JObj [("success", JBool true);
                    ("title", JStr (title d));
                    ("thumbnail", JStr thumb);
                    ("duration", JStr (lengthSeconds d));
                    ("author", JStr (author_name d));
                    ("qualities",
                     JArr (quality_json <$> youtube_qualities w (formats info)))]).

Definition youtube_info_catch (w : World) (error : Thrown) : M unit :=
  emit (ConsoleError "YouTube Info Error:" error);;
  res_status 500;;
  res_json (JObj [("error", JStr (js "Failed to fetch video information"));
                  ("details", error_message w error)]).

Definition youtube_info (w : World) (body : JsValue) : M unit :=
  try_catch (youtube_info_try w body) (youtube_info_catch w).

(** ** POST /api/youtube/download (Node.js:72-114) *)

Definition content_disposition (name : jsstring) : jsstring :=
  js "attachment; filename=" ++ [dquote] ++ name ++ js ".mp4" ++ [dquote].

(** The listener of Node.js:95-103. *)
Definition youtube_download_on_error (w : World) (error : Thrown) : M unit :=
  emit (ConsoleError "Stream Error:" error);;
  r ← get_res;
  if negb (headersSent r) then
    res_status 500;;
    res_json (JObj [("error", JStr (js "Download failed"));
                    ("details", error_message w error)])
  else mret tt.

(** The body of the [try]; it yields the stream it piped, if any. *)
Definition youtube_download_try (w : World) (body : JsValue) : M (option Stream) :=
  destructure body;;
  let url := property "url" body in
  let itag := property "itag" body in
  if negb (truthy url) || negb (validateURL w url) then
    res_status 400;; res_json invalid_youtube_url;; mret None
  else
    emit (CallGetInfo url);;
    info ← await (getInfo w url);
    let title := sanitize (title (videoDetails info)) in
    res_header "Content-Disposition" (content_disposition title);;
    res_header "Content-Type" (js "video/mp4");;
    let quality := js_or itag (JStr (js "highest")) in
    emit (CallYtdl url quality);;
    mret (Some (ytdl w url quality)).

(** Node.js:105-113. *)
Definition youtube_download_catch (w : World) (error : Thrown) : M (option Stream) :=
  emit (ConsoleError "YouTube Download Error:" error);;
  r ← get_res;
  (if negb (headersSent r) then
     res_status 500;;
     res_json (JObj [("error", JStr (js "Failed to download video"));
                     ("details", error_message w error)])
   else mret tt);;
  mret None.

(** After the handler returned: the chunks flow into the response,
    then the stream ends, fails (the listener runs) or stalls. *)
Definition pump (w : World) (s : Stream) : M unit :=
  foldr (fun c rest => res_write c;; rest)
    (match finish s with
     | StreamEnds => res_end
     | StreamErrors e => youtube_download_on_error w e
     | StreamStalls => mret tt
     end)
    (chunks s).

Definition youtube_download (w : World) (body : JsValue) : M unit :=
  piped ← try_catch (youtube_download_try w body) (youtube_download_catch w);
  match piped with
  | Some s => pump w s
  | None => mret tt
  end.

(** ** POST /api/instagram/info (Node.js:117-157) *)

(** The label by position (Node.js:138-139). *)
Definition instagram_label (index : nat) : jsstring :=
  match index with
  | 0%nat => js "1080p (Full HD)"
  | 1%nat => js "720p (HD)"
  | _ => js "480p"
  end.

(** One element of [result.url_list.map((urlItem, index) => ..)]. *)
Definition instagram_quality (index : nat) (urlItem : jsstring) : JsValue :=
  JObj [("url", JStr urlItem); ("quality", JStr (instagram_label index));
        ("format", JStr (js "mp4")); ("size", JStr (js "Unknown"))].

(** [result.url_list[0]]. *)
Definition first_url (l : list jsstring) : JsValue :=
  match l with
  | [] => JUndefined
  | u :: _ => JStr u
  end.

Definition instagram_found (r : InstagramResult) (l : list jsstring) : JsValue :=
  JObj [("success", JBool true);
        ("thumbnail", js_or (thumbnail r) (first_url l));
        ("qualities", JArr (imap instagram_quality l))].

Definition instagram_not_found : M unit :=
  res_status 404;;
  res_json (JObj [("error", JStr (js "Could not fetch Instagram video"))]).

Definition instagram_info_try (w : World) (body : JsValue) : M unit :=
  destructure body;;
  let url := property "url" body in
  invalid ← (if negb (truthy url) then mret true
             else negb <$> value_includes url (js "instagram.com")) : M bool;
  if invalid : bool then
    res_status 400;;
    res_json (JObj [("error", JStr (js "Invalid Instagram URL"))])
  else
    emit (CallInstagramGetUrl url);;
    result ← await (instagramGetUrl w url);
    match result with
    | None => instagram_not_found
    | Some r =>
        match url_list r with
        | None => instagram_not_found
        | Some l => res_json (instagram_found r l)
        end
    end.

Definition instagram_info_catch (w : World) (error : Thrown) : M unit :=
  emit (ConsoleError "Instagram Info Error:" error);;
  res_status 500;;
  res_json (JObj [("error", JStr (js "Failed to fetch Instagram video"));
                  ("details", error_message w error)]).

Definition instagram_info (w : World) (body : JsValue) : M unit :=
  try_catch (instagram_info_try w body) (instagram_info_catch w).

(** ** POST /api/instagram/download (Node.js:160-190) *)

Definition instagram_download_try (w : World) (body : JsValue) : M unit :=
  destructure body;;
  let qualityUrl := property "qualityUrl" body in
  if negb (truthy qualityUrl) then
    res_status 400;;
    res_json (JObj [("error", JStr (js "Quality URL is required"))])
  else
    emit (CallFetch qualityUrl);;
    response ← await (fetch w qualityUrl);
    if negb (ok response) then throw (NewError (js "Failed to fetch video"))
    else
      emit CallArrayBuffer;;
      buffer ← await (arrayBuffer response);
      res_header "Content-Disposition"
        (js "attachment; filename=" ++ [dquote] ++ js "instagram_video.mp4" ++ [dquote]);;
      res_header "Content-Type" (js "video/mp4");;
      res_send buffer.

(** Node.js:183-189: there is no test of [res.headersSent] here. *)
Definition instagram_download_catch (w : World) (error : Thrown) : M unit :=
  emit (ConsoleError "Instagram Download Error:" error);;
  res_status 500;;
  res_json (JObj [("error", JStr (js "Failed to download video"));
                  ("details", error_message w error)]).

Definition instagram_download (w : World) (body : JsValue) : M unit :=
  try_catch (instagram_download_try w body) (instagram_download_catch w).

(** ** GET /health (Node.js:193-195) *)

Definition health : M unit :=
  res_json (JObj [("status", JStr (js "OK"));
                  ("message", JStr (js "Video Downloader API is running"))]).

(** ** The router *)

Inductive Route :=
| YoutubeInfo
| YoutubeDownload
| InstagramInfo
| InstagramDownload
| Health.

Record Request := { route : Route; body : JsValue }.

Definition handler (w : World) (req : Request) : M unit :=
  match route req with
  | YoutubeInfo => youtube_info w (body req)
  | YoutubeDownload => youtube_download w (body req)
  | InstagramInfo => instagram_info w (body req)
  | InstagramDownload => instagram_download w (body req)
  | Health => health
  end.

(** Express hands every request a response object of its own; the
    file keeps no state between requests. *)
Definition serve (w : World) (req : Request) : Result unit * HState :=
  handler w req fresh.

Definition serve_all (w : World) (reqs : list Request) : list (Result unit * HState) :=
  serve w <$> reqs.

(** A body on the wire has a field when [JSON.stringify] keeps it:
    the key is there and its value is not undefined. *)
Definition has_field (k : string) (v : JsValue) : Prop :=
  property k v ≠ JUndefined.

(** The one JSON document a finished response carries, if it is one. *)
Definition json_of (r : Response) : option JsValue :=
  match written r with
  | [JsonBody v] => Some v
  | _ => None
  end.

Definition extractor_call (e : Effect) : bool :=
  match e with
  | CallGetInfo _ | CallYtdl _ _ | CallInstagramGetUrl _ => true
  | _ => false
  end.

(** ** Reference definitions for the statements *)

(** First occurrence wins: walk the list once, remembering the labels
    already met. *)
Fixpoint keep_first (seen : list jsstring) (l : list Quality) : list Quality :=
  match l with
  | [] => []
  | q :: t =>
      if bool_decide (quality q ∈ seen) then keep_first seen t
      else q :: keep_first (quality q :: seen) t
  end.

(** Position [i] of [l] holds [q], and no earlier position holds its label. *)
Definition first_with_label (l : list Quality) (i : nat) (q : Quality) : Prop :=
  l !! i = Some q ∧
  ∀ j q', (j < i)%nat → l !! j = Some q' → quality q' ≠ quality q.

(** The resolution [getResolution] reads off a label. *)
Definition label_resolution (to_double : Z → Z) (label : jsstring) : Z :=
  match regex_match label with
  | Some ds => to_double (decimal_value ds)
  | None => 0
  end.

(** [s.endsWith(p)]. *)
Definition ends_with (p s : jsstring) : bool :=
  starts_with (reverse p) (reverse s).

(** The text after the scheme of an http or https URL. *)
Definition after_scheme (s : jsstring) : option jsstring :=
  if starts_with (js "https://") s then Some (drop 8 s)
  else if starts_with (js "http://") s then Some (drop 7 s)
  else None.

(** The host ends at the first slash, question mark, hash or colon. *)
Definition host_char (c : Z) : bool :=
  negb ((c =? 47) || (c =? 63) || (c =? 35) || (c =? 58)).

Fixpoint take_host (s : jsstring) : jsstring :=
  match s with
  | [] => []
  | c :: rest => if host_char c then c :: take_host rest else []
  end.

(** The spec's "URL of the target platform" for Instagram: an http or
    https URL whose host is instagram.com or one of its subdomains. *)
Definition is_instagram_url (s : jsstring) : bool :=
  match after_scheme s with
  | Some rest =>
      let host := take_host rest in
      bool_decide (host = js "instagram.com") || ends_with (js ".instagram.com") host
  | None => false
  end.

(** The fields of a success payload of the info endpoints. *)
Definition success_fields : list string :=
  ["success"; "title"; "thumbnail"; "duration"; "author"; "qualities"].

(** The handler returned, and the response is one JSON document with
    the given status, an error field and no field of a success payload. *)
Definition error_response (code : Z) (out : Result unit * HState) : Prop :=
  out.1 = Ok tt ∧
  statusCode (res out.2) = code ∧
  ∃ v, json_of (res out.2) = Some v ∧ has_field "error" v ∧
       Forall (fun k => property k v = JUndefined) success_fields.

(** The outcome "400 with an error field, extractor not called". *)
Definition bad_request (out : Result unit * HState) : Prop :=
  error_response 400 out ∧
  existsb extractor_call (effects out.2) = false.



(** A 200 head went out. *)
Definition succeeded (r : Response) : Prop :=
  statusCode r = 200 ∧ headersSent r = true.

(** C3 as the spec words it: a missing url, or any string that is not
    a URL of the platform, is answered 400 by both info endpoints. For
    YouTube the platform test is the library's own [validateURL]. *)
Definition foreign_urls_rejected : Prop :=
  ∀ (w : World) (fields : list (string * JsValue)),
    (assoc "url" fields = JUndefined →
       bad_request (youtube_info w (JObj fields) fresh) ∧
       bad_request (instagram_info w (JObj fields) fresh)) ∧
    (∀ s, assoc "url" fields = JStr s →
       (validateURL w (JStr s) = false →
          bad_request (youtube_info w (JObj fields) fresh)) ∧
       (is_instagram_url s = false →
          bad_request (instagram_info w (JObj fields) fresh))).

(** The test of Node.js:121 passes: the url is truthy and its
    [includes] finds instagram.com. *)
Definition names_instagram (v : JsValue) : bool :=
  truthy v &&
  match v with
  | JStr s => includes (js "instagram.com") s
  | JArr items => existsb (is_string (js "instagram.com")) items
  | _ => false
  end.

(** The response after [res.status(code).json(v)] on a fresh [res]. *)
Definition json_reply (code : Z) (v : JsValue) : Response :=
  {| statusCode := code;
     headers := {[ "Content-Type" := js "application/json; charset=utf-8" ]};
     headersSent := true; written := [JsonBody v]; finished := true |}.

(** The headers the download handler sets before piping. *)
Definition video_headers (name : jsstring) : gmap string jsstring :=
  <["Content-Type" := js "video/mp4"]>
    (<["Content-Disposition" := content_disposition name]> ∅).


(** ** Sample inputs *)

Definition sample_option (label : string) (tag : Z) : Quality :=
  {| itag := tag; quality := js label; format := js "mp4";
     size := js "Unknown"; hasAudio := true; hasVideo := true |}.

Definition sample_details : VideoDetails :=
  {| title := js "Rock & Roll: Live (2024)!";
     thumbnails := [js "https://i.ytimg.com/vi/x/default.jpg"];
     lengthSeconds := js "212"; author_name := js "Band" |}.

Definition sample_stream : Stream :=
  {| chunks := [[0; 1; 2]; [3; 4]]; finish := StreamEnds |}.

(** A world in which every library call succeeds. *)
Definition sample_world : World :=
  {| validateURL := fun v =>
       match v with
       | JStr s => includes (js "youtube.com/watch?v=") s
       | _ => false
       end;
     getInfo := fun _ => inr {| formats := []; videoDetails := sample_details |};
     filterFormats := fun fs =>
       List.filter (fun f => fmt_hasVideo f && fmt_hasAudio f) fs;
     ytdl := fun _ _ => sample_stream;
     instagramGetUrl := fun _ =>
       inr (Some {| url_list := Some [js "https://cdn.example/a.mp4";
                                      js "https://cdn.example/b.mp4";
                                      js "https://cdn.example/c.mp4"];
                    thumbnail := JUndefined |});
     fetch := fun _ => inr {| ok := true; arrayBuffer := inr [7; 8; 9] |};
     parseInt_double := fun x => x;
     size_label := fun n => n ++ js " B";
     fault_message := fun _ => js "TypeError" |}.

(** The same world with the extractors failing. *)
Definition failing_world : World :=
  {| validateURL := validateURL sample_world;
     getInfo := fun _ => inl (Rejected (JStr (js "Video unavailable")));
     filterFormats := filterFormats sample_world;
     ytdl := ytdl sample_world;
     instagramGetUrl := fun _ => inl (Rejected (JStr (js "Request failed")));
     fetch := fun _ => inl (Rejected (JStr (js "fetch failed")));
     parseInt_double := parseInt_double sample_world;
     size_label := size_label sample_world;
     fault_message := fault_message sample_world |}.

(** The same world with an extractor that finds nothing. *)
Definition empty_world : World :=
  {| validateURL := validateURL sample_world;
     getInfo := getInfo sample_world;
     filterFormats := filterFormats sample_world;
     ytdl := ytdl sample_world;
     instagramGetUrl := fun _ => inr (Some {| url_list := None; thumbnail := JUndefined |});
     fetch := fetch sample_world;
     parseInt_double := parseInt_double sample_world;
     size_label := size_label sample_world;
     fault_message := fault_message sample_world |}.

Definition youtube_body : JsValue :=
  JObj [("url", JStr (js "https://www.youtube.com/watch?v=abc"))].

Definition instagram_body : JsValue :=
  JObj [("url", JStr (js "https://www.instagram.com/reel/xyz/"))].


(** ** Definitions for the further properties *)

(** The response after one more chunk went through the pipe. *)
Definition wrote (r : Response) (c : list Z) : Response :=
  {| statusCode := statusCode r; headers := headers r; headersSent := true;
     written := written r ++ [Bytes c]; finished := finished r |}.

(** The response and the call log at [videoStream.pipe(res)]. *)
Definition piping (name : jsstring) (log : list Effect) : HState :=
  {| res := {| statusCode := 200; headers := video_headers name;
               headersSent := false; written := []; finished := false |};
     effects := log |}.

(** The download handler gets as far as piping: the url passes, the
    extractor resolves with [info], and Node accepts the file name. *)
Definition download_starts (w : World) (fields : list (string * JsValue))
    (info : VideoInfo) : Prop :=
  truthy (assoc "url" fields) = true ∧
  validateURL w (assoc "url" fields) = true ∧
  getInfo w (assoc "url" fields) = inr info ∧
  forallb valid_header_char
    (content_disposition (sanitize (title (videoDetails info)))) = true.

(** The quality handed to [ytdl]: [itag || 'highest']. *)
Definition requested_quality (fields : list (string * JsValue)) : JsValue :=
  js_or (assoc "itag" fields) (JStr (js "highest")).

(** Status and body agree: 200 goes with success and no error field,
    every other status with an error field and no success field. *)
Definition consistent_reply (r : Response) : Prop :=
  ∃ v, written r = [JsonBody v] ∧ finished r = true ∧ headersSent r = true ∧
       ((statusCode r = 200 ∧ property "success" v = JBool true ∧
         property "error" v = JUndefined) ∨
        (statusCode r ≠ 200 ∧ has_field "error" v ∧
         property "success" v = JUndefined)).

(** [sample_world] with other answers from the libraries. *)
Definition world_with (info : Thrown + VideoInfo) (stream : Stream)
    (found : Thrown + option InstagramResult)
    (fetched : Thrown + FetchResponse) : World :=
  {| validateURL := validateURL sample_world;
     getInfo := fun _ => info;
     filterFormats := filterFormats sample_world;
     ytdl := fun _ _ => stream;
     instagramGetUrl := fun _ => found;
     fetch := fun _ => fetched;
     parseInt_double := parseInt_double sample_world;
     size_label := size_label sample_world;
     fault_message := fault_message sample_world |}.

Definition sample_info : VideoInfo :=
  {| formats :=
       [{| fmt_itag := 22; fmt_qualityLabel := Some (js "720p");
           fmt_quality := js "hd720"; fmt_container := js "mp4";
           fmt_contentLength := Some (js "1048576");
           fmt_hasAudio := true; fmt_hasVideo := true |};
        {| fmt_itag := 18; fmt_qualityLabel := Some (js "360p");
           fmt_quality := js "medium"; fmt_container := js "mp4";
           fmt_contentLength := None;
           fmt_hasAudio := true; fmt_hasVideo := true |};
        {| fmt_itag := 137; fmt_qualityLabel := Some (js "1080p");
           fmt_quality := js "hd1080"; fmt_container := js "mp4";
           fmt_contentLength := None;
           fmt_hasAudio := false; fmt_hasVideo := true |};
        {| fmt_itag := 59; fmt_qualityLabel := Some (js "720p");
           fmt_quality := js "hd720"; fmt_container := js "webm";
           fmt_contentLength := None;
           fmt_hasAudio := true; fmt_hasVideo := true |}];
     videoDetails := sample_details |}.

Definition broken_stream : Stream :=
  {| chunks := []; finish := StreamErrors (Rejected (JStr (js "aborted"))) |}.

Definition cut_stream : Stream :=
  {| chunks := [[0; 1; 2]]; finish := StreamErrors (Rejected (JStr (js "aborted"))) |}.

Definition sample_found : Thrown + option InstagramResult :=
  instagramGetUrl sample_world JUndefined.

Definition sample_fetched : Thrown + FetchResponse := fetch sample_world JUndefined.


Definition youtube_fields : list (string * JsValue) :=
  [("url", JStr (js "https://www.youtube.com/watch?v=abc")); ("itag", JNum (Finite 22 0))].

Definition instagram_fields : list (string * JsValue) :=
  [("url", JStr (js "https://www.instagram.com/reel/xyz/"));
   ("qualityUrl", JStr (js "https://cdn.example/a.mp4"))].

(** A video whose title runs over two lines. *)
Definition two_line_info : VideoInfo :=
  {| formats := [];
     videoDetails :=
       {| title := js "Part one" ++ [10] ++ js "Part two";
          thumbnails := thumbnails sample_details;
          lengthSeconds := js "60"; author_name := js "Band" |} |}.

(** A video without thumbnails. *)
Definition bare_info : VideoInfo :=
  {| formats := formats sample_info;
     videoDetails :=
       {| title := js "Untitled"; thumbnails := [];
          lengthSeconds := js "60"; author_name := js "Band" |} |}.

(** ** Deduplication (Node.js:43-45) *)

Section FindIndex.
Context {A : Type} (p : A → bool).

Lemma findIndex_lower (l : list A) : -1 ≤ findIndex p l.
Proof.
  induction l as [|x t IH]; simpl; [lia|].
  destruct (p x); [lia|].
  destruct (Z.ltb_spec (findIndex p t) 0); lia.
Qed.

(** The first hit is found where it stands. *)
Lemma findIndex_first (pre : list A) (x : A) (t : list A) :
  Forall (fun y => p y = false) pre → p x = true →
  findIndex p (pre ++ x :: t) = Z.of_nat (length pre).
Proof.
  intros Hpre Hx. induction Hpre as [|y pre Hy _ IH]; simpl.
  - by rewrite Hx.
  - rewrite Hy, IH.
    destruct (Z.ltb_spec (Z.of_nat (length pre)) 0); lia.
Qed.

(** An earlier hit keeps the index short of a later position. *)
Lemma findIndex_earlier (pre t : list A) :
  Exists (fun y => p y = true) pre →
  findIndex p (pre ++ t) < Z.of_nat (length pre).
Proof.
  induction pre as [|y pre IH]; intros Hex.
  - by apply Exists_nil in Hex.
  - simpl. destruct (p y) eqn:Hy; [lia|].
    apply Exists_cons in Hex as [Hex|Hex]; [congruence|].
    specialize (IH Hex).
    destruct (Z.ltb_spec (findIndex p (pre ++ t)) 0); lia.
Qed.
End FindIndex.

(** The callback of the filter, at position [length pre] of
    [pre ++ q :: t], tests that the label of [q] is new. *)
Lemma unique_callback (pre : list Quality) (q : Quality) (t : list Quality) :
  (Z.of_nat (length pre) =?
     findIndex (fun q' => bool_decide (quality q' = quality q)) (pre ++ q :: t))
  = negb (bool_decide (quality q ∈ quality <$> pre)).
Proof.
  destruct (decide (quality q ∈ quality <$> pre)) as [Hin|Hnin].
  - rewrite (bool_decide_eq_true_2 _ Hin). simpl. apply Z.eqb_neq.
    assert (Exists (fun y => bool_decide (quality y = quality q) = true) pre) as Hex.
    { apply list_elem_of_fmap in Hin as (y & Hy & Hin).
      apply Exists_exists. exists y. split; [done|]. by apply bool_decide_eq_true. }
    pose proof (findIndex_earlier _ pre (q :: t) Hex). lia.
  - rewrite (bool_decide_eq_false_2 _ Hnin). simpl. apply Z.eqb_eq.
    symmetry. apply findIndex_first.
    + apply Forall_forall. intros y Hy. apply bool_decide_eq_false.
      intros Heq. apply Hnin. apply list_elem_of_fmap. by exists y.
    + by apply bool_decide_eq_true.
Qed.

Lemma keep_first_ext (s1 s2 : list jsstring) (l : list Quality) :
  (∀ y, y ∈ s1 ↔ y ∈ s2) → keep_first s1 l = keep_first s2 l.
Proof.
  revert s1 s2. induction l as [|b l IH]; intros s1 s2 Hs; [done|]. simpl.
  rewrite (bool_decide_ext _ _ (Hs (quality b))).
  destruct (bool_decide (quality b ∈ s2)); [by apply IH|].
  f_equal. apply IH. intros y. rewrite !elem_of_cons. by rewrite Hs.
Qed.

Lemma filter_from_keep_first (pre l : list Quality) :
  filter_from
    (fun quality0 index self =>
       index =? findIndex (fun q => bool_decide (quality q = quality quality0)) self)
    (pre ++ l) (Z.of_nat (length pre)) l
  = keep_first (quality <$> pre) l.
Proof.
  revert pre. induction l as [|q t IH]; intros pre; [done|].
  cbn [filter_from keep_first]. rewrite unique_callback.
  specialize (IH (pre ++ [q])).
  rewrite <- app_assoc, length_app, Nat2Z.inj_add, fmap_app in IH.
  change (Z.of_nat (length [q])) with 1 in IH.
  change ([q] ++ t) with (q :: t) in IH.
  change (quality <$> [q]) with [quality q] in IH. rewrite IH.
  destruct (decide (quality q ∈ quality <$> pre)) as [Hin|Hnin].
  - rewrite (bool_decide_eq_true_2 _ Hin). simpl.
    apply keep_first_ext. intros y.
    rewrite elem_of_app, list_elem_of_singleton.
    split; [intros [Hy| ->]; done | by left].
  - rewrite (bool_decide_eq_false_2 _ Hnin). simpl. f_equal.
    apply keep_first_ext. intros y.
    rewrite elem_of_app, list_elem_of_singleton, elem_of_cons. tauto.
Qed.

Lemma uniqueQualities_keep_first (l : list Quality) :
  uniqueQualities l = keep_first [] l.
Proof. exact (filter_from_keep_first [] l). Qed.

Lemma keep_first_sublist (seen : list jsstring) (l : list Quality) :
  sublist (keep_first seen l) l.
Proof.
  revert seen. induction l as [|q t IH]; intros seen; simpl.
  - constructor.
  - destruct (bool_decide (quality q ∈ seen)).
    + apply sublist_cons. apply IH.
    + apply sublist_skip. apply IH.
Qed.

Lemma keep_first_unseen (seen : list jsstring) (l : list Quality) (q : Quality) :
  q ∈ keep_first seen l → quality q ∉ seen.
Proof.
  revert seen. induction l as [|a t IH]; intros seen; simpl.
  - by rewrite elem_of_nil.
  - destruct (decide (quality a ∈ seen)) as [Hin|Hnin].
    + rewrite (bool_decide_eq_true_2 _ Hin). apply IH.
    + rewrite (bool_decide_eq_false_2 _ Hnin), elem_of_cons.
      intros [->|Hq]; [done|].
      apply IH in Hq. intros Hs. apply Hq. by right.
Qed.

Lemma keep_first_NoDup (seen : list jsstring) (l : list Quality) :
  NoDup (quality <$> keep_first seen l).
Proof.
  revert seen. induction l as [|a t IH]; intros seen; simpl.
  - constructor.
  - destruct (bool_decide (quality a ∈ seen)); [apply IH|].
    rewrite fmap_cons. constructor; [|apply IH].
    intros Hin. apply list_elem_of_fmap in Hin as (q & Heq & Hq).
    apply keep_first_unseen in Hq. apply Hq. rewrite Heq. by left.
Qed.

(** What [keep_first] keeps: the elements standing at a position
    before which their label occurs neither in the list nor in [seen]. *)
Lemma keep_first_elem_of (seen : list jsstring) (l : list Quality) (q : Quality) :
  q ∈ keep_first seen l ↔
  ∃ i, first_with_label l i q ∧ quality q ∉ seen.
Proof.
  revert seen. induction l as [|a t IH]; intros seen; simpl.
  - rewrite elem_of_nil. split; [done|]. by intros (i & [Hi _] & _).
  - destruct (decide (quality a ∈ seen)) as [Hin|Hnin].
    + rewrite (bool_decide_eq_true_2 _ Hin), IH. split.
      * intros (i & [Hi Hfirst] & Hs). exists (S i). split; [|done].
        split; [done|]. intros [|j] q' Hj Hq'; simpl in Hq'.
        -- injection Hq' as <-. congruence.
        -- apply (Hfirst j); [lia|done].
      * intros ([|i] & [Hi Hfirst] & Hs); simpl in Hi.
        -- injection Hi as <-. done.
        -- exists i. split; [|done]. split; [done|].
           intros j q' Hj Hq'. apply (Hfirst (S j)); [lia|done].
    + rewrite (bool_decide_eq_false_2 _ Hnin), elem_of_cons, IH. split.
      * intros [->|(i & [Hi Hfirst] & Hs)].
        -- exists 0%nat. split; [|done]. split; [done|]. intros j q' Hj. lia.
        -- exists (S i). rewrite not_elem_of_cons in Hs. destruct Hs as [Hne Hs].
           split; [|done]. split; [done|].
           intros [|j] q' Hj Hq'; simpl in Hq'.
           ++ injection Hq' as <-. congruence.
           ++ apply (Hfirst j); [lia|done].
      * intros ([|i] & [Hi Hfirst] & Hs); simpl in Hi.
        -- injection Hi as <-. by left.
        -- right. exists i. split.
           ++ split; [done|]. intros j q' Hj Hq'. apply (Hfirst (S j)); [lia|done].
           ++ rewrite not_elem_of_cons. split; [|done].
              intros Heq. apply (Hfirst 0%nat a); [lia|done|done].
Qed.

(** No label of the input is lost. *)
Lemma keep_first_covers (seen : list jsstring) (l : list Quality) (q : Quality) :
  q ∈ l → quality q ∈ seen ∨ quality q ∈ quality <$> keep_first seen l.
Proof.
  revert seen. induction l as [|a t IH]; intros seen; simpl.
  - by rewrite elem_of_nil.
  - rewrite elem_of_cons.
    destruct (decide (quality a ∈ seen)) as [Hin|Hnin].
    + rewrite (bool_decide_eq_true_2 _ Hin). intros [->|Hq]; [by left|by apply IH].
    + rewrite (bool_decide_eq_false_2 _ Hnin), fmap_cons.
      intros [->|Hq]; [right; by left|].
      destruct (IH (quality a :: seen) Hq) as [Hs|Hk].
      * apply elem_of_cons in Hs as [Heq|Hs]; [right; rewrite Heq; by left|by left].
      * right. by right.
Qed.

(** C2. For every list of quality options, the deduplication filter of
    the YouTube info endpoint is the first-occurrence-wins pass: it
    keeps exactly the options standing at the first position of their
    label, drops every later option with a label already met, and the
    survivors are a subsequence of the input (same relative order),
    with pairwise distinct labels. *)
Theorem C2_dedup_first_occurrence (l : list Quality) :
  uniqueQualities l = keep_first [] l ∧
  sublist (uniqueQualities l) l ∧
  NoDup (quality <$> uniqueQualities l) ∧
  (∀ q, q ∈ uniqueQualities l ↔ ∃ i, first_with_label l i q) ∧
  (∀ q, q ∈ l → quality q ∈ quality <$> uniqueQualities l).
Proof.
  rewrite uniqueQualities_keep_first.
  split; [done|]. split; [apply keep_first_sublist|].
  split; [apply keep_first_NoDup|].
  assert (∀ q, q ∈ keep_first [] l ↔ ∃ i, first_with_label l i q) as Hchar.
  { intros q. rewrite keep_first_elem_of. split.
    - intros (i & Hi & _). by exists i.
    - intros (i & Hi). exists i. split; [done|]. apply not_elem_of_nil. }
  split; [done|].
  intros q Hq. destruct (keep_first_covers [] l q Hq) as [Hs|Hk]; [|done].
  by apply elem_of_nil in Hs.
Qed.

(** ** The sort (Node.js:53-59) *)

Section SortByKey.
Context {A : Type} (key : A → Z).

(** The comparator of the source: [(a, b) => key(b) - key(a)]. *)
Let cmp (a b : A) : Z := key b - key a.

Lemma insert_by_perm (x : A) (l : list A) : insert_by cmp x l ≡ₚ x :: l.
Proof.
  induction l as [|y t IH]; simpl; [done|].
  destruct (0 <? cmp x y); [|done].
  rewrite IH. apply Permutation_swap.
Qed.

Lemma array_sort_perm (l : list A) : array_sort cmp l ≡ₚ l.
Proof.
  induction l as [|x t IH]; simpl; [done|].
  unfold array_sort in *. simpl. rewrite insert_by_perm. by rewrite IH.
Qed.

Lemma insert_by_sorted (x : A) (l : list A) :
  StronglySorted (fun a b => key b ≤ key a) l →
  StronglySorted (fun a b => key b ≤ key a) (insert_by cmp x l).
Proof.
  induction 1 as [|y t Hs IH Hy]; simpl.
  - repeat constructor.
  - unfold cmp at 1. destruct (Z.ltb_spec 0 (key y - key x)).
    + constructor; [done|].
      rewrite insert_by_perm. constructor; [lia|done].
    + constructor; [by constructor|].
      constructor; [lia|].
      eapply Forall_impl; [exact Hy|]. simpl. intros z Hz. lia.
Qed.

Lemma array_sort_sorted (l : list A) :
  StronglySorted (fun a b => key b ≤ key a) (array_sort cmp l).
Proof.
  induction l as [|x t IH]; [constructor|].
  apply insert_by_sorted, IH.
Qed.

(** Options of equal key keep their order. *)
Lemma insert_by_stable (k : Z) (x : A) (l : list A) :
  filter (fun a => key a = k) (insert_by cmp x l)
  = filter (fun a => key a = k) (x :: l).
Proof.
  induction l as [|y t IH]; simpl; [done|].
  unfold cmp at 1. destruct (Z.ltb_spec 0 (key y - key x)); [|done].
  rewrite filter_cons, IH, !filter_cons.
  destruct (decide (key y = k)), (decide (key x = k)); try done. lia.
Qed.

Lemma array_sort_stable (k : Z) (l : list A) :
  filter (fun a => key a = k) (array_sort cmp l) = filter (fun a => key a = k) l.
Proof.
  induction l as [|x t IH]; [done|].
  change (array_sort cmp (x :: t)) with (insert_by cmp x (array_sort cmp t)).
  rewrite insert_by_stable, !filter_cons, IH. done.
Qed.
(** Two descending lists that agree on the elements of every key, in
    order, are equal: a stable sort has one possible result. *)
Lemma stable_sorted_unique (l1 l2 : list A) :
  StronglySorted (fun a b => key b ≤ key a) l1 →
  StronglySorted (fun a b => key b ≤ key a) l2 →
  (∀ k, filter (fun a => key a = k) l1 = filter (fun a => key a = k) l2) →
  l1 = l2.
Proof.
  intros Hs1. revert l2. induction Hs1 as [|x t1 Hs1 IH Hx]; intros l2 Hs2 Hf.
  - destruct l2 as [|y t2]; [done|].
    specialize (Hf (key y)). rewrite filter_cons_True in Hf by done. done.
  - destruct Hs2 as [|y t2 Hs2 Hy].
    { specialize (Hf (key x)). rewrite filter_cons_True in Hf by done. done. }
    assert (key x = key y) as Hk.
    { apply Z.le_antisymm.
      - assert (x ∈ filter (fun a => key a = key x) (y :: t2)) as Hin
          by (rewrite <- Hf, filter_cons_True by done; left).
        apply list_elem_of_filter in Hin as [_ Hin].
        apply elem_of_cons in Hin as [->|Hin]; [done|].
        rewrite Forall_forall in Hy. by apply Hy.
      - assert (y ∈ filter (fun a => key a = key y) (x :: t1)) as Hin
          by (rewrite Hf, filter_cons_True by done; left).
        apply list_elem_of_filter in Hin as [_ Hin].
        apply elem_of_cons in Hin as [->|Hin]; [done|].
        rewrite Forall_forall in Hx. by apply Hx. }
    pose proof (Hf (key x)) as Hhead.
    rewrite filter_cons_True in Hhead by done.
    rewrite (filter_cons_True _ y) in Hhead by done.
    injection Hhead as -> Htail.
    f_equal. apply IH; [done|]. intros k. specialize (Hf k).
    rewrite !filter_cons in Hf. destruct (decide (key y = k)); [|done].
    by injection Hf.
Qed.

(** Whatever algorithm the engine runs, a stable descending sort by
    [key] returns what [array_sort] returns. *)
Lemma array_sort_unique (l out : list A) :
  StronglySorted (fun a b => key b ≤ key a) out →
  (∀ k, filter (fun a => key a = k) out = filter (fun a => key a = k) l) →
  out = array_sort (fun a b => key b - key a) l.
Proof.
  intros Hs Hf. apply stable_sorted_unique; [done|apply array_sort_sorted|].
  intros k. by rewrite Hf, array_sort_stable.
Qed.
End SortByKey.

(** ** The pattern [(\d+)p] *)

Lemma digits_then_p_spec (s ds : jsstring) :
  digits_then_p s = Some ds →
  ds ≠ [] ∧ Forall (fun c => is_digit c = true) ds ∧ ∃ post, s = ds ++ 112 :: post.
Proof.
  revert ds. induction s as [|c rest IH]; intros ds; simpl; [done|].
  destruct (is_digit c) eqn:Hc; [|done].
  destruct (digits_then_p rest) as [ds'|] eqn:Hrest.
  - intros [= <-]. destruct (IH ds' eq_refl) as (_ & Hd & post & ->).
    split; [done|]. split; [by constructor|]. by exists post.
  - destruct rest as [|c' rest']; [done|].
    destruct (Z.eqb_spec c' 112) as [->|]; [|done].
    intros [= <-]. split; [done|]. split; [by repeat constructor|]. by exists rest'.
Qed.

Lemma regex_match_spec (s ds : jsstring) :
  regex_match s = Some ds →
  ds ≠ [] ∧ Forall (fun c => is_digit c = true) ds ∧
  ∃ pre post, s = pre ++ ds ++ 112 :: post.
Proof.
  induction s as [|c rest IH]; [done|].
  cbn [regex_match]. destruct (digits_then_p (c :: rest)) as [ds'|] eqn:Hd.
  - intros [= <-]. destruct (digits_then_p_spec _ _ Hd) as (Hne & Hdig & post & Hs).
    split; [done|]. split; [done|]. exists [], post. by rewrite Hs.
  - intros Hm. destruct (IH Hm) as (Hne & Hdig & pre & post & ->).
    split; [done|]. split; [done|]. by exists (c :: pre), post.
Qed.

(** A digit standing right before a p is always found. *)
Lemma digits_then_p_hit (d : Z) (post : jsstring) :
  is_digit d = true → is_Some (digits_then_p (d :: 112 :: post)).
Proof. intros Hd. simpl. rewrite Hd. simpl. by eexists. Qed.

Lemma regex_match_None (s : jsstring) :
  regex_match s = None ↔
  ∀ pre d post, s = pre ++ d :: 112 :: post → is_digit d = false.
Proof.
  split.
  - induction s as [|c rest IH]; intros Hm pre d post Hs.
    + by destruct pre.
    + cbn [regex_match] in Hm.
      destruct (digits_then_p (c :: rest)) eqn:Hd; [done|].
      destruct pre as [|c0 pre]; simpl in Hs.
      * injection Hs as -> ->. destruct (is_digit d) eqn:Hdig; [|done].
        destruct (digits_then_p_hit d post Hdig) as [x Hx]. congruence.
      * injection Hs as -> ->. by apply (IH Hm pre d post).
  - intros Hno. destruct (regex_match s) as [ds|] eqn:Hm; [|done].
    destruct (regex_match_spec _ _ Hm) as (Hne & Hdig & pre & post & ->).
    destruct (exists_last Hne) as (ds' & d & ->).
    apply Forall_app in Hdig as [_ Hd]. rewrite Forall_singleton in Hd.
    simpl in Hd. rewrite (Hno (pre ++ ds') d post) in Hd; [done|].
    by rewrite <- !app_assoc.
Qed.

Lemma fold_digits_nonneg (ds : jsstring) (acc : Z) :
  0 ≤ acc → Forall (fun c => is_digit c = true) ds →
  0 ≤ fold_left (fun a c => 10 * a + (c - 48)) ds acc.
Proof.
  revert acc. induction ds as [|c ds IH]; intros acc Hacc Hd; simpl; [done|].
  apply Forall_cons in Hd as [Hc Hd]. apply IH; [|done].
  unfold is_digit in Hc. lia.
Qed.

Lemma decimal_value_nonneg (ds : jsstring) :
  Forall (fun c => is_digit c = true) ds → 0 ≤ decimal_value ds.
Proof. intros Hd. by apply fold_digits_nonneg. Qed.

(** ** The quality sort *)

Section QualitySort.
Variable to_double : Z → Z.
Hypothesis rounding : double_rounding to_double.

Lemma getResolution_label (q : Quality) :
  getResolution to_double q = label_resolution to_double (quality q).
Proof. done. Qed.

Lemma label_resolution_nonneg (s : jsstring) : 0 ≤ label_resolution to_double s.
Proof.
  unfold label_resolution. destruct (regex_match s) as [ds|] eqn:Hm; [|done].
  destruct (regex_match_spec _ _ Hm) as (_ & Hd & _).
  rewrite <- (to_double_exact _ rounding 0) at 1 by done.
  apply (to_double_mono _ rounding), decimal_value_nonneg, Hd.
Qed.

Lemma label_resolution_small (s ds : jsstring) :
  regex_match s = Some ds → 0 ≤ decimal_value ds < 2 ^ 53 →
  label_resolution to_double s = decimal_value ds.
Proof.
  intros Hm Hv. unfold label_resolution. rewrite Hm.
  by apply (to_double_exact _ rounding).
Qed.

(** Evaluate the resolution of a literal label with digits [ds]. *)
Ltac label_value ds :=
  rewrite (label_resolution_small _ ds);
  [reflexivity | vm_compute; reflexivity
  | split; [apply Z.leb_le | apply Z.ltb_lt]; vm_compute; reflexivity].

Lemma sorted_lookup_le (out : list Quality) (i j : nat) (x y : Quality) :
  StronglySorted
    (fun a b => getResolution to_double b ≤ getResolution to_double a) out →
  out !! i = Some x → out !! j = Some y → (i < j)%nat →
  getResolution to_double y ≤ getResolution to_double x.
Proof.
  intros Hs Hi Hj Hlt.
  rewrite <- (take_drop_middle _ _ _ Hi) in Hs, Hj.
  apply StronglySorted_app in Hs as (_ & _ & Hs).
  apply StronglySorted_cons in Hs as [Hx _].
  rewrite Forall_forall in Hx. apply Hx.
  rewrite lookup_app_r in Hj by (rewrite length_take; lia).
  rewrite length_take_le in Hj by (apply lookup_lt_Some in Hi; lia).
  destruct (j - i)%nat as [|k] eqn:Hk; [lia|]. simpl in Hj.
  by apply list_elem_of_lookup_2 in Hj.
Qed.

(** The four labels of the spec's example have distinct resolutions. *)
Lemma example_labels_distinct (u x1 x2 : jsstring) :
  regex_match u = None →
  x1 ∈ [js "1080p"; js "720p"; js "360p"; u] →
  x2 ∈ [js "1080p"; js "720p"; js "360p"; u] →
  label_resolution to_double x1 = label_resolution to_double x2 → x1 = x2.
Proof.
  intros Hu H1 H2.
  assert (label_resolution to_double (js "1080p") = 1080) as E1
    by (label_value (js "1080")).
  assert (label_resolution to_double (js "720p") = 720) as E2
    by (label_value (js "720")).
  assert (label_resolution to_double (js "360p") = 360) as E3
    by (label_value (js "360")).
  assert (label_resolution to_double u = 0) as E4
    by (unfold label_resolution; by rewrite Hu).
  rewrite !elem_of_cons, elem_of_nil in H1, H2.
  destruct H1 as [->|[->|[->|[->|[]]]]], H2 as [->|[->|[->|[->|[]]]]];
    rewrite ?E1, ?E2, ?E3, ?E4; intros; first [done | lia].
Qed.

(** C1. The quality sort of POST /api/youtube/info returns a
    permutation of its input ordered descending by the integer parsed
    from the digits that stand immediately before a p in the label
    (equal resolutions keep their order); an option whose label has
    no such number stands after every option with a positive
    resolution; and the labels 720p, 360p, 1080p and one label without
    a number, in any input order, come out as 1080p, 720p, 360p and
    the label without a number last. *)
Theorem C1_quality_sort (l : list Quality) :
  let out := sortQualities to_double l in
  out ≡ₚ l ∧
  StronglySorted
    (fun a b => getResolution to_double b ≤ getResolution to_double a) out ∧
  (∀ k, filter (fun q => getResolution to_double q = k) out
        = filter (fun q => getResolution to_double q = k) l) ∧
  (∀ q ds, regex_match (quality q) = Some ds →
     getResolution to_double q = to_double (decimal_value ds) ∧
     ds ≠ [] ∧ Forall (fun c => is_digit c = true) ds ∧
     ∃ pre post, quality q = pre ++ ds ++ 112 :: post) ∧
  (∀ i j x y, out !! i = Some x → out !! j = Some y →
     regex_match (quality x) = None → 0 < getResolution to_double y →
     (j < i)%nat) ∧
  (∀ u, regex_match u = None →
     quality <$> l ≡ₚ [js "720p"; js "360p"; js "1080p"; u] →
     quality <$> out = [js "1080p"; js "720p"; js "360p"; u]).
Proof.
  intros out.
  assert (out ≡ₚ l) as Hperm by apply array_sort_perm.
  assert (StronglySorted
            (fun a b => getResolution to_double b ≤ getResolution to_double a) out)
    as Hsorted by apply (array_sort_sorted (getResolution to_double)).
  split; [done|]. split; [done|].
  split; [intros k; apply (array_sort_stable (getResolution to_double))|].
  split.
  { intros q ds Hm. split; [unfold getResolution; by rewrite Hm|].
    apply regex_match_spec, Hm. }
  split.
  { intros i j x y Hi Hj Hx Hy.
    assert (getResolution to_double x = 0) as Hx0
      by (unfold getResolution; by rewrite Hx).
    destruct (Nat.lt_trichotomy i j) as [Hlt|[->|Hgt]]; [| |done].
    2: { assert (x = y) as -> by congruence. lia. }
    pose proof (sorted_lookup_le out i j x y Hsorted Hi Hj Hlt). lia. }
  intros u Hu Hl.
  assert (quality <$> out ≡ₚ [js "1080p"; js "720p"; js "360p"; u]) as Hout.
  { rewrite Hperm, Hl.
    apply (Permutation_trans (l' := [js "720p"; js "1080p"; js "360p"; u])).
    - apply perm_skip, perm_swap.
    - apply perm_swap. }
  apply (StronglySorted_unique_strong
           (fun a b => label_resolution to_double b ≤ label_resolution to_double a));
    [| | |done].
  - intros x1 x2 H1 H2 H12 H21. rewrite Hout in H1.
    apply (example_labels_distinct u); [done..|lia].
  - eapply StronglySorted_fmap; [|exact Hsorted].
    intros a b Hab. by rewrite <- !getResolution_label.
  - assert (label_resolution to_double (js "1080p") = 1080) as E1
      by (label_value (js "1080")).
    assert (label_resolution to_double (js "720p") = 720) as E2
      by (label_value (js "720")).
    assert (label_resolution to_double (js "360p") = 360) as E3
      by (label_value (js "360")).
    assert (label_resolution to_double u = 0) as E4
      by (unfold label_resolution; by rewrite Hu).
    repeat (constructor; [repeat constructor; rewrite ?E1, ?E2, ?E3, ?E4; lia|]).
    constructor.
Qed.
End QualitySort.

(** ** The handlers *)

(** Unfold the monad and the Express operations of a handler run. *)
Ltac run :=
  cbv [youtube_info youtube_info_try youtube_info_catch
       youtube_download youtube_download_try youtube_download_catch
       youtube_download_on_error
       instagram_info instagram_info_try instagram_info_catch instagram_not_found
       instagram_download instagram_download_try instagram_download_catch
       health destructure last_thumbnail
       res_status res_header res_json res_send res_write res_end
       try_catch throw await emit get_res put_res
       mbind M_bind mret M_ret fmap M_fmap fresh fresh_response
       res effects statusCode headers headersSent written finished].

Ltac settle := cbv beta iota zeta delta [negb orb andb fst snd property].

(** Decide the next test of a handler run, keeping the equation. *)
Ltac branch :=
  match goal with
  | |- context [value_includes (assoc ?k ?f) _] =>
      destruct (assoc k f) eqn:?; cbv [value_includes mret M_ret throw]
  | |- context [includes ?n ?s] => destruct (includes n s) eqn:?
  | |- context [existsb ?p ?l] => destruct (existsb p l) eqn:?
  | |- context [truthy ?v] => destruct (truthy v) eqn:?
  | |- context [validateURL ?w ?v] => destruct (validateURL w v) eqn:?
  | |- context [getInfo ?w ?v] => destruct (getInfo w v) eqn:?
  | |- context [last ?l] => destruct (last l) eqn:?
  | |- context [instagramGetUrl ?w ?v] =>
      destruct (instagramGetUrl w v) as [?|[?|]] eqn:?
  | |- context [url_list ?r] => destruct (url_list r) eqn:?
  | |- context [fetch ?w ?v] => destruct (fetch w v) eqn:?
  | |- context [ok ?r] => destruct (ok r) eqn:?
  | |- context [arrayBuffer ?r] => destruct (arrayBuffer r) eqn:?
  | |- context [forallb valid_header_char ?v] =>
      destruct (forallb valid_header_char v) eqn:?
  end; settle.

(** Membership in a short literal call log, decided by cases. *)
Ltac in_log H :=
  cbv [snd effects app] in H;
  rewrite ?elem_of_cons, ?elem_of_nil in H;
  repeat (destruct H as [H|H]); try done; simplify_eq.

(** C10. For every GET /health, whatever requests were served before
    or after it and whatever they did, the response is 200 with a JSON
    body whose status field is "OK" and which has a message field. *)
Theorem C10_health (w : World) (before after : list Request) (b : JsValue) :
  ∃ st,
    serve_all w (before ++ {| route := Health; body := b |} :: after)
      !! length before = Some (Ok tt, st) ∧
    statusCode (res st) = 200 ∧
    ∃ v, json_of (res st) = Some v ∧
         property "status" v = JStr (js "OK") ∧ has_field "message" v.
Proof.
  unfold serve_all. rewrite fmap_app, fmap_cons.
  rewrite list_lookup_middle by (by rewrite length_fmap).
  eexists. split; [reflexivity|]. split; [reflexivity|].
  eexists. split; [reflexivity|]. split; [reflexivity|]. done.
Qed.


Lemma youtube_info_calls (w : World) (body : JsValue) (u : JsValue) :
  CallGetInfo u ∈ effects (youtube_info w body fresh).2 →
  u = property "url" body ∧ truthy u = true ∧ validateURL w u = true ∧
  body ≠ JUndefined ∧ body ≠ JNull.
Proof.
  destruct body; run; settle; repeat branch; intros Hlog; in_log Hlog;
    repeat split; congruence.
Qed.

Lemma instagram_info_calls (w : World) (body : JsValue) (u : JsValue) :
  CallInstagramGetUrl u ∈ effects (instagram_info w body fresh).2 →
  u = property "url" body ∧ names_instagram u = true ∧
  body ≠ JUndefined ∧ body ≠ JNull.
Proof.
  destruct body; run; settle; repeat branch; intros Hlog; in_log Hlog.
  all: repeat split; try congruence.
  all: unfold names_instagram; rewrite ?andb_true_iff; split; congruence.
Qed.

Lemma youtube_info_failure (w : World) (body : JsValue) (e : Thrown) :
  body ≠ JUndefined → body ≠ JNull →
  truthy (property "url" body) = true →
  validateURL w (property "url" body) = true →
  getInfo w (property "url" body) = inl e →
  youtube_info w body fresh =
  (Ok tt,
   {| res := json_reply 500
               (JObj [("error", JStr (js "Failed to fetch video information"));
                      ("details", error_message w e)]);
      effects := [CallGetInfo (property "url" body);
                  ConsoleError "YouTube Info Error:" e] |}).
Proof.
  intros Hb1 Hb2 Ht Hv He. destruct body; try done; run; settle.
  all: cbv [property] in Ht, Hv, He; try discriminate.
  rewrite Ht, Hv. settle. rewrite He. reflexivity.
Qed.

Lemma instagram_info_failure (w : World) (body : JsValue) (e : Thrown) :
  body ≠ JUndefined → body ≠ JNull →
  names_instagram (property "url" body) = true →
  instagramGetUrl w (property "url" body) = inl e →
  instagram_info w body fresh =
  (Ok tt,
   {| res := json_reply 500
               (JObj [("error", JStr (js "Failed to fetch Instagram video"));
                      ("details", error_message w e)]);
      effects := [CallInstagramGetUrl (property "url" body);
                  ConsoleError "Instagram Info Error:" e] |}).
Proof.
  unfold names_instagram. intros Hb1 Hb2 [Ht Hn]%andb_true_iff He.
  destruct body; try done; run; settle.
  all: cbv [property] in Ht, Hn, He; try discriminate.
  rewrite Ht. settle. destruct (assoc "url" fields); try discriminate;
    cbv [value_includes mret M_ret]; rewrite Hn; settle; rewrite He; reflexivity.
Qed.

Lemma instagram_info_not_found (w : World) (body : JsValue) :
  body ≠ JUndefined → body ≠ JNull →
  names_instagram (property "url" body) = true →
  (instagramGetUrl w (property "url" body) = inr None ∨
   ∃ r, instagramGetUrl w (property "url" body) = inr (Some r) ∧ url_list r = None) →
  instagram_info w body fresh =
  (Ok tt,
   {| res := json_reply 404
               (JObj [("error", JStr (js "Could not fetch Instagram video"))]);
      effects := [CallInstagramGetUrl (property "url" body)] |}).
Proof.
  unfold names_instagram. intros Hb1 Hb2 [Ht Hn]%andb_true_iff He.
  destruct body; try done; run; settle.
  all: cbv [property] in Ht, Hn, He; try discriminate.
  rewrite Ht. settle. destruct (assoc "url" fields); try discriminate;
    cbv [value_includes mret M_ret]; rewrite Hn; settle;
    destruct He as [He|(r & He & Hl)]; rewrite He; settle; rewrite ?Hl; reflexivity.
Qed.

Lemma instagram_info_found (w : World) (body : JsValue) (r : InstagramResult)
    (l : list jsstring) :
  body ≠ JUndefined → body ≠ JNull →
  names_instagram (property "url" body) = true →
  instagramGetUrl w (property "url" body) = inr (Some r) →
  url_list r = Some l →
  instagram_info w body fresh =
  (Ok tt,
   {| res := json_reply 200 (instagram_found r l);
      effects := [CallInstagramGetUrl (property "url" body)] |}).
Proof.
  unfold names_instagram. intros Hb1 Hb2 [Ht Hn]%andb_true_iff He Hl.
  destruct body; try done; run; settle.
  all: cbv [property] in Ht, Hn, He; try discriminate.
  rewrite Ht. settle. destruct (assoc "url" fields); try discriminate;
    cbv [value_includes mret M_ret]; rewrite Hn; settle;
    rewrite He; settle; rewrite Hl; reflexivity.
Qed.

Lemma error_response_reply (code : Z) (v : JsValue) (log : list Effect) :
  has_field "error" v →
  Forall (fun k => property k v = JUndefined) success_fields →
  error_response code (Ok tt, {| res := json_reply code v; effects := log |}).
Proof.
  intros He Hs. split; [done|]. split; [done|]. by exists v.
Qed.

(** C5. Whenever an info endpoint calls its extractor and the call
    throws, the endpoint answers 500 with one JSON document that has an
    error field, at most a details field besides, and none of the
    fields of a success payload (success, title, thumbnail, duration,
    author, qualities). *)
Theorem C5_extractor_failure (w : World) (body u : JsValue) (e : Thrown) :
  (CallGetInfo u ∈ effects (youtube_info w body fresh).2 →
   getInfo w u = inl e →
   error_response 500 (youtube_info w body fresh) ∧
   ∃ v, json_of (res (youtube_info w body fresh).2) = Some v ∧
        ∀ k, has_field k v → k = "error" ∨ k = "details") ∧
  (CallInstagramGetUrl u ∈ effects (instagram_info w body fresh).2 →
   instagramGetUrl w u = inl e →
   error_response 500 (instagram_info w body fresh) ∧
   ∃ v, json_of (res (instagram_info w body fresh).2) = Some v ∧
        ∀ k, has_field k v → k = "error" ∨ k = "details").
Proof.
  split.
  - intros Hcall He.
    apply youtube_info_calls in Hcall as (-> & Ht & Hv & Hb1 & Hb2).
    rewrite (youtube_info_failure w body e) by done. split.
    + apply error_response_reply; [done|]. by repeat constructor.
    + eexists. split; [reflexivity|]. intros k. unfold has_field. simpl.
      repeat case_bool_decide; auto. done.
  - intros Hcall He.
    apply instagram_info_calls in Hcall as (-> & Hn & Hb1 & Hb2).
    rewrite (instagram_info_failure w body e) by done. split.
    + apply error_response_reply; [done|]. by repeat constructor.
    + eexists. split; [reflexivity|]. intros k. unfold has_field. simpl.
      repeat case_bool_decide; auto. done.
Qed.

(** C6. Whenever POST /api/instagram/info calls the extractor and it
    resolves to no result, or to a result without a url_list, the
    endpoint answers 404 with a JSON document that has an error field
    and no field of a success payload. *)
Theorem C6_instagram_not_found (w : World) (body u : JsValue) :
  CallInstagramGetUrl u ∈ effects (instagram_info w body fresh).2 →
  (instagramGetUrl w u = inr None ∨
   ∃ r, instagramGetUrl w u = inr (Some r) ∧ url_list r = None) →
  error_response 404 (instagram_info w body fresh).
Proof.
  intros Hcall He.
  apply instagram_info_calls in Hcall as (-> & Hn & Hb1 & Hb2).
  rewrite (instagram_info_not_found w body) by done.
  apply error_response_reply; [done|]. by repeat constructor.
Qed.

(** C8. When the extractor of POST /api/instagram/info resolves to a
    result with a url_list, the response is 200 with success true and a
    qualities array with one entry per URL of the list, in the same
    order; the entry at index 0 is labelled 1080p (Full HD), the one at
    index 1 720p (HD), every later one 480p, whatever the stream is;
    format is always mp4 and size always Unknown. *)
Theorem C8_instagram_qualities (w : World) (body u : JsValue)
    (r : InstagramResult) (l : list jsstring) :
  CallInstagramGetUrl u ∈ effects (instagram_info w body fresh).2 →
  instagramGetUrl w u = inr (Some r) →
  url_list r = Some l →
  ∃ st v entries,
    instagram_info w body fresh = (Ok tt, st) ∧
    statusCode (res st) = 200 ∧
    json_of (res st) = Some v ∧
    property "success" v = JBool true ∧
    property "qualities" v = JArr entries ∧
    length entries = length l ∧
    ∀ (i : nat) (item : jsstring), l !! i = Some item →
      entries !! i =
      Some (JObj [("url", JStr item);
                  ("quality",
                   JStr (if decide (i = 0%nat) then js "1080p (Full HD)"
                         else if decide (i = 1%nat) then js "720p (HD)"
                         else js "480p"));
                  ("format", JStr (js "mp4"));
                  ("size", JStr (js "Unknown"))]).
Proof.
  intros Hcall He Hl.
  apply instagram_info_calls in Hcall as (-> & Hn & Hb1 & Hb2).
  rewrite (instagram_info_found w body r l) by done.
  eexists _, _, _. split; [reflexivity|]. split; [done|].
  split; [reflexivity|]. split; [done|]. split; [reflexivity|].
  split; [by rewrite length_imap|].
  intros i item Hi. rewrite list_lookup_imap, Hi. simpl.
  unfold instagram_quality. do 3 f_equal.
  by destruct i as [|[|i]].
Qed.

(** ** Streaming *)

(** Once the head is out, pumping only appends the chunks: status and
    headers stay, and a failing stream writes nothing. *)
Lemma pump_after_head (w : World) (s : Stream) (st : HState) :
  headersSent (res st) = true →
  ∃ st', pump w s st = (Ok tt, st') ∧
         statusCode (res st') = statusCode (res st) ∧
         headers (res st') = headers (res st) ∧
         headersSent (res st') = true ∧
         written (res st') = written (res st) ++ (Bytes <$> chunks s).
Proof.
  unfold pump. destruct s as [cs fin]. cbn [chunks finish].
  revert st. induction cs as [|c cs IH];
    intros [[code hs sent wr fin'] log] Hsent; cbn in Hsent; subst sent;
    cbn [foldr].
  - destruct fin; run; settle;
      eexists; (split; [reflexivity|]); cbn; by rewrite ?app_nil_r.
  - destruct (IH {| res := {| statusCode := code; headers := hs;
                                headersSent := true; written := wr ++ [Bytes c];
                                finished := fin' |};
                       effects := log |} eq_refl)
      as (st' & Hp & Hc & Hh & Hs & Hw).
    exists st'. split; [exact Hp|]. cbn in *.
    rewrite Hc, Hh, Hw, <- app_assoc. done.
Qed.

(** From a response whose head is not out yet. *)
Lemma pump_before_head (w : World) (s : Stream) (st : HState) :
  headersSent (res st) = false →
  ∃ st', pump w s st = (Ok tt, st') ∧
    ((statusCode (res st') = statusCode (res st) ∧
      headers (res st') = headers (res st) ∧
      written (res st') = written (res st) ++ (Bytes <$> chunks s)) ∨
     (chunks s = [] ∧ statusCode (res st') = 500 ∧
      ∃ v, written (res st') = written (res st) ++ [JsonBody v])).
Proof.
  destruct st as [[code hs sent wr fin'] log]. intros Hsent; cbn in Hsent; subst sent.
  destruct s as [[|c cs] fin].
  - unfold pump. cbn [chunks finish foldr].
    destruct fin; run; settle;
      eexists; (split; [reflexivity|]); cbn; rewrite ?app_nil_r; eauto.
  - destruct (pump_after_head w {| chunks := cs; finish := fin |}
                 {| res := {| statusCode := code; headers := hs;
                              headersSent := true; written := wr ++ [Bytes c];
                              finished := fin' |};
                    effects := log |} eq_refl)
      as (st' & Hp & Hc & Hh & Hs & Hw).
    exists st'. split; [exact Hp|]. left. cbn in *.
    rewrite Hc, Hh, Hw, <- app_assoc. done.
Qed.

(** Every run of the YouTube download endpoint returns, in one of three
    ways: the video headers and then the chunks; or a single JSON
    error document; the latter only while no chunk was written. *)
Lemma youtube_download_outcome (w : World) (body : JsValue) :
  ∃ st, youtube_download w body fresh = (Ok tt, st) ∧
    ((∃ info,
        getInfo w (property "url" body) = inr info ∧
        statusCode (res st) = 200 ∧
        headers (res st) = video_headers (sanitize (title (videoDetails info))) ∧
        Forall (fun p => ∃ b, p = Bytes b) (written (res st))) ∨
     (statusCode (res st) = 400 ∨ statusCode (res st) = 500) ∧
     ∃ v, written (res st) = [JsonBody v]).
Proof.
  unfold youtube_download.
  assert (∀ name log q,
    ∃ st, pump w q
            {| res := {| statusCode := 200; headers := video_headers name;
                         headersSent := false; written := []; finished := false |};
               effects := log |} = (Ok tt, st) ∧
          ((statusCode (res st) = 200 ∧ headers (res st) = video_headers name ∧
            Forall (fun p => ∃ b, p = Bytes b) (written (res st))) ∨
           (statusCode (res st) = 500 ∧ ∃ v, written (res st) = [JsonBody v])))
    as Hpump.
  { intros name log q.
    destruct (pump_before_head w q
                {| res := {| statusCode := 200; headers := video_headers name;
                             headersSent := false; written := [];
                             finished := false |};
                   effects := log |} eq_refl)
      as (st & Hp & [(Hc & Hh & Hw)|(_ & Hc & v & Hw)]);
      exists st; (split; [exact Hp|]); cbn in *.
    - left. rewrite Hw. split; [done|]. split; [done|].
      apply Forall_fmap, Forall_true. intros b. by exists b.
    - right. eauto. }
  destruct body; run; settle;
    change (forallb valid_header_char (js "video/mp4")) with true;
    repeat branch;
    try (eexists; split; [reflexivity|]; right; cbn; split; [auto|]; by eexists).
  all: match goal with
       | |- context [pump _ ?q {| res := _; effects := ?log |}] =>
           match goal with
           | |- context [content_disposition (sanitize (title (videoDetails ?i)))] =>
               destruct (Hpump (sanitize (title (videoDetails i))) log q)
                 as (st & Hp & [(Hc & Hh & Hw)|(Hc & x & Hw)]);
               exists st; (split; [exact Hp|]);
               [left; exists i; done | right; split; [auto|by exists x]]
           end
       end.
Qed.

(** C7. Every run of POST /api/youtube/download that sends a 200 head
    carries Content-Type: video/mp4 and a Content-Disposition header
    attachment; filename="<name>.mp4", where <name> is the title
    reported by the extractor with every code unit removed that is
    neither a word character nor white space. *)
Theorem C7_download_headers (w : World) (body : JsValue) :
  let st := (youtube_download w body fresh).2 in
  succeeded (res st) →
  ∃ info,
    getInfo w (property "url" body) = inr info ∧
    headers (res st) !! "Content-Type" = Some (js "video/mp4") ∧
    headers (res st) !! "Content-Disposition" =
      Some (js "attachment; filename=" ++ [34]
            ++ filter (fun c => is_word c = true ∨ is_space c = true)
                 (title (videoDetails info))
            ++ js ".mp4" ++ [34]).
Proof.
  intros st [Hcode Hsent]. subst st.
  destruct (youtube_download_outcome w body)
    as (st & Hrun & [(info & Hinfo & Hc & Hh & Hw)|([Hc|Hc] & _)]);
    rewrite Hrun in *; cbn [snd] in *; [|congruence..].
  exists info. split; [done|]. rewrite Hh. unfold video_headers.
  split; [apply lookup_insert_eq|].
  rewrite lookup_insert_ne, lookup_insert_eq by done.
  unfold content_disposition, sanitize, dquote. do 3 f_equal.
  f_equal. apply list_filter_iff. intros c.
  destruct (is_word c), (is_space c); simpl; intuition discriminate.
Qed.

(** C9. POST /api/instagram/download does not depend on the url field:
    two request bodies with the same qualityUrl, whatever else they
    hold, lead from the same response state to the same calls, the same
    status, headers and body. *)
Theorem C9_download_ignores_url (w : World) (fields1 fields2 : list (string * JsValue))
    (st : HState) :
  assoc "qualityUrl" fields1 = assoc "qualityUrl" fields2 →
  instagram_download w (JObj fields1) st = instagram_download w (JObj fields2) st.
Proof.
  intros Heq. unfold instagram_download, instagram_download_try, property.
  cbn [destructure]. by rewrite Heq.
Qed.

(** ** Validation of the url *)

Lemma starts_with_spec (p s : jsstring) :
  starts_with p s = true → s = p ++ drop (length p) s.
Proof.
  revert s. induction p as [|a p IH]; intros [|b s]; simpl; try done.
  intros [Hab Hp]%andb_true_iff. apply Z.eqb_eq in Hab as ->.
  f_equal. by apply IH.
Qed.

Lemma starts_with_app (p s t : jsstring) :
  starts_with p s = true → starts_with p (s ++ t) = true.
Proof.
  revert s. induction p as [|a p IH]; intros [|b s]; simpl; try done.
  intros [Hab Hp]%andb_true_iff. rewrite Hab. simpl. by apply IH.
Qed.

Lemma includes_app_l (n s t : jsstring) :
  includes n s = true → includes n (s ++ t) = true.
Proof.
  induction s as [|b s IH]; simpl.
  - rewrite orb_false_r. intros Hn. destruct n; [|done]. by destruct t.
  - intros [Hp|Hi]%orb_true_iff.
    + pose proof (starts_with_app n (b :: s) t Hp) as Hx.
      simpl in Hx. by rewrite Hx.
    + rewrite IH by done. apply orb_true_r.
Qed.

Lemma includes_app_r (n s t : jsstring) :
  includes n t = true → includes n (s ++ t) = true.
Proof.
  intros Ht. induction s as [|b s IH]; simpl; [done|].
  rewrite IH. apply orb_true_r.
Qed.

(** [includes] finds exactly the strings that contain the needle. *)
Lemma includes_spec (n s : jsstring) :
  includes n s = true ↔ ∃ pre post, s = pre ++ n ++ post.
Proof.
  split.
  - induction s as [|b s IH]; simpl.
    + rewrite orb_false_r. intros Hn. exists [], []. by destruct n.
    + intros [Hp|Hi]%orb_true_iff.
      * exists [], (drop (length n) (b :: s)). by apply starts_with_spec.
      * destruct (IH Hi) as (pre & post & ->). by exists (b :: pre), post.
  - intros (pre & post & ->). apply includes_app_r, includes_app_l.
    clear. destruct n as [|a n]; [done|]. simpl.
    assert (∀ m : jsstring, starts_with m m = true) as Hrefl.
    { induction m as [|c m IHm]; [done|]. simpl. by rewrite Z.eqb_refl. }
    by rewrite Z.eqb_refl, Hrefl.
Qed.

Lemma take_host_prefix (s : jsstring) : ∃ rest, s = take_host s ++ rest.
Proof.
  induction s as [|c s [rest IH]]; simpl; [by exists []|].
  destruct (host_char c); [|by eexists].
  exists rest. simpl. by rewrite <- IH.
Qed.

(** A string that does not contain instagram.com is no Instagram URL:
    the test of the handler lets every Instagram URL through. *)
Lemma instagram_url_includes (s : jsstring) :
  is_instagram_url s = true → includes (js "instagram.com") s = true.
Proof.
  unfold is_instagram_url, after_scheme.
  assert (∀ rest,
    bool_decide (take_host rest = js "instagram.com")
    || ends_with (js ".instagram.com") (take_host rest) = true →
    includes (js "instagram.com") rest = true) as Hhost.
  { intros rest Hh. destruct (take_host_prefix rest) as [tl Hrest].
    rewrite Hrest. apply includes_app_l.
    apply orb_true_iff in Hh as [Hh|Hh].
    - apply bool_decide_eq_true in Hh. by rewrite Hh.
    - unfold ends_with in Hh. apply starts_with_spec in Hh.
      apply (f_equal reverse) in Hh. rewrite reverse_involutive, reverse_app in Hh.
      rewrite reverse_involutive in Hh. rewrite Hh.
      by apply includes_app_r. }
  destruct (starts_with (js "https://") s) eqn:H1.
  - intros Hh. rewrite (starts_with_spec _ _ H1). apply includes_app_r.
    by apply Hhost.
  - destruct (starts_with (js "http://") s) eqn:H2; [|done].
    intros Hh. rewrite (starts_with_spec _ _ H2). apply includes_app_r.
    by apply Hhost.
Qed.

Lemma youtube_info_rejects (w : World) (fields : list (string * JsValue)) :
  truthy (assoc "url" fields) = false ∨ validateURL w (assoc "url" fields) = false →
  youtube_info w (JObj fields) fresh =
  (Ok tt, {| res := json_reply 400 invalid_youtube_url; effects := [] |}).
Proof.
  intros H. run; settle.
  destruct H as [H|H]; rewrite H; settle; [reflexivity|].
  destruct (truthy _); reflexivity.
Qed.

Lemma instagram_info_rejects (w : World) (fields : list (string * JsValue)) :
  assoc "url" fields = JUndefined ∨
  (∃ s, assoc "url" fields = JStr s ∧ includes (js "instagram.com") s = false) →
  instagram_info w (JObj fields) fresh =
  (Ok tt,
   {| res := json_reply 400 (JObj [("error", JStr (js "Invalid Instagram URL"))]);
      effects := [] |}).
Proof.
  intros [H|(s & H & Hs)]; run; settle; rewrite H; [reflexivity|].
  destruct (truthy _); settle; [|reflexivity].
  cbv [value_includes mret M_ret]. rewrite Hs. reflexivity.
Qed.

(** A string that contains instagram.com passes the test, whatever
    else it is: the extractor is called with it. *)
Lemma instagram_info_accepts (w : World) (fields : list (string * JsValue))
    (s : jsstring) :
  assoc "url" fields = JStr s →
  includes (js "instagram.com") s = true →
  CallInstagramGetUrl (JStr s) ∈ effects (instagram_info w (JObj fields) fresh).2.
Proof.
  intros Hu Hs.
  assert (truthy (JStr s) = true) as Ht by (by destruct s).
  run; settle. rewrite Hu, Ht. settle.
  cbv [value_includes mret M_ret]. rewrite Hs. settle.
  repeat branch; cbn; by left.
Qed.

Lemma bad_request_reply (v : JsValue) :
  has_field "error" v →
  Forall (fun k => property k v = JUndefined) success_fields →
  bad_request (Ok tt, {| res := json_reply 400 v; effects := [] |}).
Proof. intros He Hs. split; [by apply error_response_reply|done]. Qed.

(** The claim as worded fails on a URL of another site that merely
    mentions instagram.com: the extractor is called and its answer
    returned with status 200. *)
Lemma C3_counterexample : ¬ foreign_urls_rejected.
Proof.
  intros Hclaim.
  pose (s := js "https://example.com/?next=instagram.com").
  destruct (Hclaim sample_world [("url", JStr s)]) as [_ Hstr].
  destruct (Hstr s eq_refl) as [_ Hig].
  destruct (Hig eq_refl) as [(_ & Hcode & _) _].
  vm_compute in Hcode. discriminate.
Qed.

(** C3 (amended). A request body whose url field is missing, or is a
    string that ytdl.validateURL rejects (YouTube) or that does not
    contain the text instagram.com (Instagram; such a string is never
    an Instagram URL), is answered 400 with an error field and without
    a call to the extractor. A string that contains instagram.com
    passes the Instagram test and the extractor is called with it. *)
Theorem C3_invalid_url_rejected (w : World) (fields : list (string * JsValue)) :
  (assoc "url" fields = JUndefined →
     bad_request (youtube_info w (JObj fields) fresh) ∧
     bad_request (instagram_info w (JObj fields) fresh)) ∧
  (∀ s, assoc "url" fields = JStr s →
     (validateURL w (JStr s) = false →
        bad_request (youtube_info w (JObj fields) fresh)) ∧
     (includes (js "instagram.com") s = false →
        is_instagram_url s = false ∧
        bad_request (instagram_info w (JObj fields) fresh)) ∧
     (includes (js "instagram.com") s = true →
        CallInstagramGetUrl (JStr s)
        ∈ effects (instagram_info w (JObj fields) fresh).2)).
Proof.
  split.
  - intros Hu. split.
    + rewrite youtube_info_rejects by (left; by rewrite Hu).
      apply bad_request_reply; [done|]. by repeat constructor.
    + rewrite instagram_info_rejects by by left.
      apply bad_request_reply; [done|]. by repeat constructor.
  - intros s Hu. split; [|split]; intros Hs.
    3: by apply instagram_info_accepts.
    + rewrite youtube_info_rejects by (right; by rewrite Hu).
      apply bad_request_reply; [done|]. by repeat constructor.
    + split.
      { destruct (is_instagram_url s) eqn:Hurl; [|done].
        apply instagram_url_includes in Hurl. congruence. }
      rewrite instagram_info_rejects by (right; by exists s).
      apply bad_request_reply; [done|]. by repeat constructor.
Qed.

(** ** Error paths of the download endpoints *)







(** ** The statements at sample inputs *)

Lemma identity_rounding : double_rounding (fun x => x).
Proof. split; intros; lia. Defined.

Lemma C1_witness :
  double_rounding (fun x => x) ∧
  quality <$> sortQualities (fun x => x)
                [sample_option "720p" 1; sample_option "360p" 2;
                 sample_option "hd720" 3; sample_option "1080p" 4]
  = [js "1080p"; js "720p"; js "360p"; js "hd720"].
Proof.
  split; [exact identity_rounding|].
  destruct (C1_quality_sort (fun x => x) identity_rounding
              [sample_option "720p" 1; sample_option "360p" 2;
               sample_option "hd720" 3; sample_option "1080p" 4])
    as (_ & _ & _ & _ & _ & Hexample).
  apply (Hexample (js "hd720")); [reflexivity|].
  apply perm_skip, perm_skip, perm_swap.
Defined.

Lemma C3_witness :
  bad_request (youtube_info sample_world (JObj []) fresh) ∧
  bad_request (instagram_info sample_world (JObj []) fresh) ∧
  bad_request (youtube_info sample_world
                 (JObj [("url", JStr (js "not a link"))]) fresh) ∧
  bad_request (instagram_info sample_world
                 (JObj [("url", JStr (js "not a link"))]) fresh).
Proof.
  destruct (C3_invalid_url_rejected sample_world []) as [Hmissing _].
  destruct (C3_invalid_url_rejected sample_world
              [("url", JStr (js "not a link"))]) as [_ Hstring].
  destruct (Hmissing eq_refl) as [Hy Hi].
  destruct (Hstring (js "not a link") eq_refl) as (Hys & His & _).
  split; [exact Hy|]. split; [exact Hi|].
  split; [exact (Hys eq_refl)|]. exact (proj2 (His eq_refl)).
Defined.


Lemma C5_witness :
  error_response 500 (youtube_info failing_world youtube_body fresh) ∧
  error_response 500 (instagram_info failing_world instagram_body fresh).
Proof.
  split.
  - destruct (C5_extractor_failure failing_world youtube_body
                (JStr (js "https://www.youtube.com/watch?v=abc"))
                (Rejected (JStr (js "Video unavailable")))) as [Hy _].
    apply Hy; [|reflexivity]. vm_compute. left.
  - destruct (C5_extractor_failure failing_world instagram_body
                (JStr (js "https://www.instagram.com/reel/xyz/"))
                (Rejected (JStr (js "Request failed")))) as [_ Hi].
    apply Hi; [|reflexivity]. vm_compute. left.
Defined.

Lemma C6_witness :
  error_response 404 (instagram_info empty_world instagram_body fresh).
Proof.
  apply (C6_instagram_not_found empty_world instagram_body
           (JStr (js "https://www.instagram.com/reel/xyz/"))).
  - vm_compute. left.
  - right. eexists. split; reflexivity.
Defined.

Lemma C7_witness :
  succeeded (res (youtube_download sample_world youtube_body fresh).2) ∧
  headers (res (youtube_download sample_world youtube_body fresh).2)
    !! "Content-Disposition"
  = Some (js "attachment; filename=" ++ [34] ++ js "Rock  Roll Live 2024"
          ++ js ".mp4" ++ [34]).
Proof.
  assert (succeeded (res (youtube_download sample_world youtube_body fresh).2))
    as Hok by (split; reflexivity).
  split; [exact Hok|].
  destruct (C7_download_headers sample_world youtube_body Hok)
    as (info & Hinfo & _ & Hcd).
  injection Hinfo as <-. exact Hcd.
Defined.

Lemma C8_witness :
  ∃ st v entries,
    instagram_info sample_world instagram_body fresh = (Ok tt, st) ∧
    json_of (res st) = Some v ∧
    property "qualities" v = JArr entries ∧
    length entries = 3%nat.
Proof.
  destruct (C8_instagram_qualities sample_world instagram_body
              (JStr (js "https://www.instagram.com/reel/xyz/"))
              {| url_list := Some [js "https://cdn.example/a.mp4";
                                   js "https://cdn.example/b.mp4";
                                   js "https://cdn.example/c.mp4"];
                 thumbnail := JUndefined |}
              [js "https://cdn.example/a.mp4"; js "https://cdn.example/b.mp4";
               js "https://cdn.example/c.mp4"])
    as (st & v & entries & Hrun & _ & Hjson & _ & Hq & Hlen & _).
  - vm_compute. left.
  - reflexivity.
  - reflexivity.
  - exists st, v, entries. done.
Defined.

Lemma C9_witness :
  instagram_download sample_world
    (JObj [("url", JStr (js "https://www.instagram.com/reel/xyz/"));
           ("qualityUrl", JStr (js "https://cdn.example/a.mp4"))]) fresh
  = instagram_download sample_world
      (JObj [("qualityUrl", JStr (js "https://cdn.example/a.mp4"));
             ("url", JNum (Finite 7 0))]) fresh.
Proof.
  apply C9_download_ignores_url. reflexivity.
Defined.

(** * Further properties of the handlers *)

(** ** More on the quality normalizer *)

(** A label not met in the list may be added to, or left out of, the
    labels already seen. *)
Lemma keep_first_fresh (a : jsstring) (seen : list jsstring) (l : list Quality) :
  a ∉ quality <$> l → keep_first (a :: seen) l = keep_first seen l.
Proof.
  revert seen. induction l as [|q t IH]; intros seen Ha; [done|].
  rewrite fmap_cons, not_elem_of_cons in Ha. destruct Ha as [Hne Ha].
  simpl. destruct (decide (quality q ∈ seen)) as [Hin|Hnin].
  - rewrite (bool_decide_eq_true_2 _ Hin).
    rewrite bool_decide_eq_true_2 by (by right). by apply IH.
  - rewrite (bool_decide_eq_false_2 _ Hnin).
    rewrite bool_decide_eq_false_2
      by (rewrite elem_of_cons; intros [Heq|Hs]; [by apply Hne|done]).
    f_equal. rewrite <- (IH (quality q :: seen)) by done.
    apply keep_first_ext. intros y. rewrite !elem_of_cons. tauto.
Qed.

(** Deduplication commutes with any selection that looks at the label
    only. *)
Lemma keep_first_filter (P : Quality → Prop) `{!∀ q, Decision (P q)}
    (seen : list jsstring) (l : list Quality) :
  (∀ q q', quality q = quality q' → P q → P q') →
  filter P (keep_first seen l) = keep_first seen (filter P l).
Proof.
  intros Hlabel. revert seen. induction l as [|q t IH]; intros seen; [done|].
  simpl. rewrite filter_cons. destruct (decide (P q)) as [Hq|Hq].
  - simpl. destruct (bool_decide (quality q ∈ seen)); [apply IH|].
    rewrite filter_cons_True by done. f_equal. apply IH.
  - destruct (bool_decide (quality q ∈ seen)); [apply IH|].
    rewrite filter_cons_False by done. rewrite IH.
    apply keep_first_fresh. intros Hin.
    apply list_elem_of_fmap in Hin as (q' & Heq & Hin).
    apply list_elem_of_filter in Hin as [Hq' _].
    apply Hq. by apply (Hlabel q' q).
Qed.

Lemma sublist_sorted {A} (R : relation A) (l1 l2 : list A) :
  sublist l1 l2 → StronglySorted R l2 → StronglySorted R l1.
Proof.
  induction 1 as [|x l1 l2 Hsub IH|x l1 l2 Hsub IH]; intros Hs; [done|..].
  - apply StronglySorted_cons in Hs as [Hx Hs].
    constructor; [by apply IH|].
    rewrite Forall_forall in *. intros y Hy. apply Hx.
    by apply (sublist_subseteq _ _ Hsub).
  - apply StronglySorted_cons in Hs as [_ Hs]. by apply IH.
Qed.

(** X1. "Remove duplicates and sort" (Node.js:42-59) in either order: the
    sort is stable and options with one label have one resolution, so
    deduplicating the sorted list gives the sorted deduplicated list. *)
Theorem dedup_sort_commute (to_double : Z → Z) (l : list Quality) :
  uniqueQualities (sortQualities to_double l)
  = sortQualities to_double (uniqueQualities l).
Proof.
  unfold sortQualities at 2.
  apply (array_sort_unique (getResolution to_double)).
  - rewrite uniqueQualities_keep_first.
    eapply sublist_sorted; [apply keep_first_sublist|].
    apply (array_sort_sorted (getResolution to_double)).
  - intros k. rewrite !uniqueQualities_keep_first.
    assert (∀ q q', quality q = quality q' →
                    getResolution to_double q = k → getResolution to_double q' = k)
      as Hlabel.
    { intros q q' Heq. unfold getResolution. by rewrite Heq. }
    rewrite !(keep_first_filter _ _ _ Hlabel). f_equal.
    apply (array_sort_stable (getResolution to_double)).
Qed.

(** X2. A second pass changes nothing: what the filter keeps has distinct
    labels, and what the sort returns is sorted. *)
Theorem normalizer_idempotent (to_double : Z → Z) (l : list Quality) :
  uniqueQualities (uniqueQualities l) = uniqueQualities l ∧
  sortQualities to_double (sortQualities to_double l) = sortQualities to_double l.
Proof.
  split.
  - rewrite !uniqueQualities_keep_first.
    assert (∀ seen l, keep_first seen (keep_first seen l) = keep_first seen l) as H.
    { clear. intros seen l. revert seen. induction l as [|q t IH]; intros seen; [done|].
      simpl. destruct (decide (quality q ∈ seen)) as [Hin|Hnin].
      - rewrite (bool_decide_eq_true_2 _ Hin). apply IH.
      - rewrite (bool_decide_eq_false_2 _ Hnin). simpl.
        rewrite (bool_decide_eq_false_2 _ Hnin). f_equal.
        rewrite <- (IH (quality q :: seen)) at 2.
        symmetry. apply keep_first_ext. intros y. done. }
    apply H.
  - symmetry. apply (array_sort_unique (getResolution to_double)).
    + apply (array_sort_sorted (getResolution to_double)).
    + done.
Qed.

(** X3. What the info endpoint reports for the formats of a video: the
    options of the filtered formats, one per label, best first. *)
Theorem youtube_qualities_spec (w : World) (fs : list Format) :
  let out := youtube_qualities w fs in
  NoDup (quality <$> out) ∧
  (∀ q, q ∈ out → ∃ f, f ∈ filterFormats w fs ∧ q = quality_of_format w f) ∧
  (∀ f, f ∈ filterFormats w fs →
        quality (quality_of_format w f) ∈ quality <$> out) ∧
  StronglySorted
    (fun a b => getResolution (parseInt_double w) b
                ≤ getResolution (parseInt_double w) a) out ∧
  (length out ≤ length (filterFormats w fs))%nat.
Proof.
  intros out. subst out. unfold youtube_qualities.
  set (qs := quality_of_format w <$> filterFormats w fs).
  assert (sortQualities (parseInt_double w) (uniqueQualities qs)
          ≡ₚ uniqueQualities qs) as Hperm
    by apply (array_sort_perm (getResolution (parseInt_double w))).
  assert (sublist (uniqueQualities qs) qs) as Hsub
    by (rewrite uniqueQualities_keep_first; apply keep_first_sublist).
  split; [|split; [|split; [|split]]].
  - rewrite Hperm, uniqueQualities_keep_first. apply keep_first_NoDup.
  - intros q Hq. rewrite Hperm in Hq.
    apply (sublist_subseteq _ _ Hsub) in Hq.
    apply list_elem_of_fmap in Hq as (f & -> & Hf). by exists f.
  - intros f Hf. rewrite Hperm, uniqueQualities_keep_first.
    destruct (keep_first_covers [] qs (quality_of_format w f)) as [Hs|Hk];
      [by apply list_elem_of_fmap_2| |done].
    by apply elem_of_nil in Hs.
  - apply (array_sort_sorted (getResolution (parseInt_double w))).
  - rewrite Hperm. apply sublist_length in Hsub.
    unfold qs in Hsub. by rewrite length_fmap in Hsub.
Qed.

(** ** Labels of the usual shape *)

Lemma digits_then_p_run (ds rest : jsstring) :
  ds ≠ [] → Forall (fun c => is_digit c = true) ds →
  digits_then_p (ds ++ 112 :: rest) = Some ds.
Proof.
  induction ds as [|c ds IH]; [done|]. intros _ Hd.
  apply Forall_cons in Hd as [Hc Hd]. simpl. rewrite Hc.
  destruct ds as [|c' ds]; [done|].
  by rewrite IH.
Qed.

(** X4. A label made of some text without digits, then a number, then a p
    (720p, 1080p60, hd1080p) has that number as its resolution. *)
Theorem resolution_of_plain_label (to_double : Z → Z) (q : Quality)
    (pre ds rest : jsstring) :
  quality q = pre ++ ds ++ 112 :: rest →
  Forall (fun c => is_digit c = false) pre →
  ds ≠ [] → Forall (fun c => is_digit c = true) ds →
  regex_match (quality q) = Some ds ∧
  getResolution to_double q = to_double (decimal_value ds).
Proof.
  intros Hq Hpre Hne Hd.
  assert (regex_match (quality q) = Some ds) as Hm.
  { rewrite Hq. clear Hq. induction Hpre as [|c pre Hc _ IH]; simpl.
    - destruct ds as [|d ds]; [done|]. cbn [app regex_match].
      change (d :: ds ++ 112 :: rest) with ((d :: ds) ++ 112 :: rest).
      by rewrite digits_then_p_run.
    - by rewrite Hc. }
  split; [done|]. unfold getResolution. by rewrite Hm.
Qed.

(** X5. A label without any p, or without any digit, has resolution 0,
    whatever it says: hd720, medium, 4K. *)
Theorem resolution_of_odd_label (to_double : Z → Z) (q : Quality) :
  112 ∉ quality q ∨ Forall (fun c => is_digit c = false) (quality q) →
  getResolution to_double q = 0.
Proof.
  intros Hodd. unfold getResolution.
  destruct (regex_match (quality q)) as [ds|] eqn:Hm; [|done].
  destruct (regex_match_spec _ _ Hm) as (Hne & Hd & pre & post & Hq).
  exfalso. destruct Hodd as [Hp|Hnd].
  - apply Hp. rewrite Hq, !elem_of_app. right. right. by left.
  - rewrite Hq in Hnd. apply Forall_app in Hnd as [_ Hnd].
    apply Forall_app in Hnd as [Hnd _].
    destruct ds as [|d ds]; [done|].
    apply Forall_cons in Hd as [Hd _]. apply Forall_cons in Hnd as [Hnd _].
    congruence.
Qed.

(** ** The pipe, chunk by chunk *)

Lemma pump_run (w : World) (s : Stream) (r : Response) (log : list Effect) :
  pump w s {| res := r; effects := log |} =
  match finish s with
  | StreamEnds => res_end
  | StreamErrors e => youtube_download_on_error w e
  | StreamStalls => mret tt
  end {| res := fold_left wrote (chunks s) r; effects := log |}.
Proof.
  unfold pump. destruct s as [cs fin]. cbn [chunks finish].
  revert r. induction cs as [|c cs IH]; intros r; [done|].
  cbn [foldr fold_left]. rewrite <- IH. by destruct r.
Qed.

Lemma wrote_chunks (cs : list (list Z)) (r : Response) :
  statusCode (fold_left wrote cs r) = statusCode r ∧
  headers (fold_left wrote cs r) = headers r ∧
  written (fold_left wrote cs r) = written r ++ (Bytes <$> cs) ∧
  finished (fold_left wrote cs r) = finished r ∧
  headersSent (fold_left wrote cs r)
  = (if cs is [] then headersSent r else true).
Proof.
  revert r. induction cs as [|c cs IH]; intros r.
  - cbn. by rewrite app_nil_r.
  - cbn [fold_left]. destruct (IH (wrote r c)) as (Hc & Hh & Hw & Hf & Hs).
    rewrite Hc, Hh, Hw, Hf, Hs. cbn. rewrite <- app_assoc.
    repeat split; try done. by destruct cs.
Qed.

Lemma youtube_download_pipes (w : World) (fields : list (string * JsValue))
    (info : VideoInfo) :
  download_starts w fields info →
  youtube_download w (JObj fields) fresh =
  pump w (ytdl w (assoc "url" fields) (requested_quality fields))
    (piping (sanitize (title (videoDetails info)))
       [CallGetInfo (assoc "url" fields);
        CallYtdl (assoc "url" fields) (requested_quality fields)]).
Proof.
  intros (Ht & Hv & Hi & Hh). unfold requested_quality.
  run; settle. change (forallb valid_header_char (js "video/mp4")) with true.
  rewrite Ht, Hv. settle. rewrite Hi. settle. rewrite Hh. settle. reflexivity.
Qed.

(** X13. A stream that ends: the response is 200 with the video headers,
    carries the chunks in order and nothing else, and is ended. The
    extractor and [ytdl] were each called once, [ytdl] with the url and
    with the itag of the request or 'highest'. *)
Theorem youtube_download_completes (w : World) (fields : list (string * JsValue))
    (info : VideoInfo) :
  download_starts w fields info →
  finish (ytdl w (assoc "url" fields) (requested_quality fields)) = StreamEnds →
  ∃ st, youtube_download w (JObj fields) fresh = (Ok tt, st) ∧
    statusCode (res st) = 200 ∧
    headers (res st) = video_headers (sanitize (title (videoDetails info))) ∧
    written (res st)
    = Bytes <$> chunks (ytdl w (assoc "url" fields) (requested_quality fields)) ∧
    headersSent (res st) = true ∧ finished (res st) = true ∧
    effects st = [CallGetInfo (assoc "url" fields);
                  CallYtdl (assoc "url" fields) (requested_quality fields)].
Proof.
  intros Hstart Hend. rewrite (youtube_download_pipes w fields info Hstart).
  unfold piping. rewrite pump_run, Hend.
  match goal with |- context [fold_left wrote ?cs ?r] =>
    destruct (wrote_chunks cs r) as (Hc & Hh & Hw & Hf & Hs) end.
  eexists. split; [reflexivity|]. cbn. by rewrite Hc, Hh, Hw.
Qed.

(** X14. A stream that fails. Before the first chunk the listener answers
    500 with a JSON error, and the attachment header set for the video
    is still on that response. After a chunk it writes nothing: the
    status stays 200, the body is the chunks received, and the response
    is left open. *)
Theorem youtube_download_stream_error (w : World) (fields : list (string * JsValue))
    (info : VideoInfo) (e : Thrown) :
  let s := ytdl w (assoc "url" fields) (requested_quality fields) in
  let name := sanitize (title (videoDetails info)) in
  download_starts w fields info →
  finish s = StreamErrors e →
  ∃ st, youtube_download w (JObj fields) fresh = (Ok tt, st) ∧
    ConsoleError "Stream Error:" e ∈ effects st ∧
    (chunks s = [] →
       statusCode (res st) = 500 ∧
       written (res st) =
         [JsonBody (JObj [("error", JStr (js "Download failed"));
                          ("details", error_message w e)])] ∧
       headers (res st) !! "Content-Disposition" = Some (content_disposition name) ∧
       finished (res st) = true) ∧
    (chunks s ≠ [] →
       statusCode (res st) = 200 ∧
       written (res st) = Bytes <$> chunks s ∧
       headers (res st) = video_headers name ∧
       finished (res st) = false).
Proof.
  intros s name Hstart Herr. subst s name.
  rewrite (youtube_download_pipes w fields info Hstart).
  unfold piping. rewrite pump_run, Herr.
  match goal with |- context [fold_left wrote ?cs ?r] =>
    destruct (wrote_chunks cs r) as (Hc & Hh & Hw & Hf & Hs);
    destruct (fold_left wrote cs r) as [code hs sent wr fin] eqn:Hfold end.
  cbn in Hc, Hh, Hw, Hf, Hs. subst code hs wr fin.
  destruct (chunks _) as [|c cs] eqn:Hcs; subst sent.
  - eexists. split; [reflexivity|]. cbn.
    split; [set_solver|]. split; [|done]. intros _.
    split; [done|]. split; [done|]. split; [|done].
    unfold video_headers. rewrite lookup_insert_ne by done.
    rewrite lookup_insert_ne by done. apply lookup_insert_eq.
  - eexists. split; [reflexivity|]. cbn.
    split; [set_solver|]. split; [done|]. intros _. done.
Qed.

(** ** The download endpoint before the pipe *)

(** X10. A url that is missing, falsy or refused by [validateURL] is
    answered 400 before anything else happens: no extractor call, no
    stream, no header of the video. *)
Theorem youtube_download_rejects (w : World) (fields : list (string * JsValue)) :
  truthy (assoc "url" fields) = false ∨ validateURL w (assoc "url" fields) = false →
  youtube_download w (JObj fields) fresh =
  (Ok tt, {| res := json_reply 400 invalid_youtube_url; effects := [] |}).
Proof.
  intros H. run; settle.
  destruct H as [H|H]; rewrite H; settle; [reflexivity|].
  destruct (truthy _); reflexivity.
Qed.

(** X11. When the extractor rejects, the download endpoint answers 500 with
    the extractor's message as details; [ytdl] is never asked for a
    stream and no video header is set. *)
Theorem youtube_download_extractor_failure (w : World)
    (fields : list (string * JsValue)) (e : Thrown) :
  truthy (assoc "url" fields) = true →
  validateURL w (assoc "url" fields) = true →
  getInfo w (assoc "url" fields) = inl e →
  youtube_download w (JObj fields) fresh =
  (Ok tt,
   {| res := json_reply 500
               (JObj [("error", JStr (js "Failed to download video"));
                      ("details", error_message w e)]);
      effects := [CallGetInfo (assoc "url" fields);
                  ConsoleError "YouTube Download Error:" e] |}).
Proof.
  intros Ht Hv He. run; settle. rewrite Ht, Hv. settle. rewrite He. reflexivity.
Qed.

(** X12. The title filter keeps every white space character, line breaks
    included, and Node refuses most of them in a header value. A title
    with such a character therefore never downloads: the handler
    answers 500 after the extractor call, without opening a stream. *)
Theorem youtube_download_title_whitespace (w : World)
    (fields : list (string * JsValue)) (info : VideoInfo) (c : Z) :
  truthy (assoc "url" fields) = true →
  validateURL w (assoc "url" fields) = true →
  getInfo w (assoc "url" fields) = inr info →
  c ∈ title (videoDetails info) →
  is_space c = true → valid_header_char c = false →
  youtube_download w (JObj fields) fresh =
  (Ok tt,
   {| res := json_reply 500
               (JObj [("error", JStr (js "Failed to download video"));
                      ("details", JStr (fault_message w InvalidHeaderChar))]);
      effects := [CallGetInfo (assoc "url" fields);
                  ConsoleError "YouTube Download Error:"
                    (EngineError InvalidHeaderChar)] |}).
Proof.
  intros Ht Hv Hi Hc Hs Hbad.
  assert (forallb valid_header_char
            (content_disposition (sanitize (title (videoDetails info)))) = false)
    as Hh.
  { unfold content_disposition. rewrite app_assoc.
    rewrite forallb_app. apply andb_false_iff. right.
    rewrite forallb_app. apply andb_false_iff. left.
    apply not_true_iff_false. intros Hall.
    rewrite forallb_forall in Hall.
    assert (c ∈ sanitize (title (videoDetails info))) as Hin.
    { unfold sanitize. apply list_elem_of_filter. split; [|done].
      rewrite Hs. apply orb_true_r. }
    apply list_elem_of_In in Hin. apply Hall in Hin. congruence. }
  run; settle. rewrite Ht, Hv. settle. rewrite Hi. settle. rewrite Hh. reflexivity.
Qed.

(** ** The title filter (Node.js:83) *)

(** X6. The filtered title consists of word and white space characters
    only, in the order of the title; nothing but the other characters
    was removed; filtering again changes nothing. *)
Theorem sanitize_spec (title0 : jsstring) :
  Forall (fun c => is_word c || is_space c = true) (sanitize title0) ∧
  sublist (sanitize title0) title0 ∧
  (∀ c, c ∈ title0 → is_word c || is_space c = true → c ∈ sanitize title0) ∧
  sanitize (sanitize title0) = sanitize title0 ∧
  (Forall (fun c => is_word c || is_space c = true) title0 ↔ sanitize title0 = title0).
Proof.
  unfold sanitize.
  assert (Forall (fun c => is_word c || is_space c = true)
            (filter (fun c => is_word c || is_space c = true) title0)) as Hall.
  { apply Forall_forall. intros c Hc. by apply list_elem_of_filter in Hc as [Hc _]. }
  assert (∀ l, Forall (fun c => is_word c || is_space c = true) l →
               filter (fun c => is_word c || is_space c = true) l = l) as Hid.
  { induction 1 as [|c l Hc _ IH]; [done|].
    rewrite filter_cons_True by done. by rewrite IH. }
  split; [done|]. split; [apply sublist_filter|].
  split; [intros c Hc Hk; by apply list_elem_of_filter|].
  split; [by apply Hid|].
  split; [apply Hid|]. intros Heq. by rewrite <- Heq.
Qed.

(** ** The info endpoints, case by case *)

(** X7. The success answer of the YouTube info endpoint: title, duration
    and author as the extractor gave them, the url of the last
    thumbnail, and the normalized quality options. The extractor is
    the only call. *)
Theorem youtube_info_success (w : World) (fields : list (string * JsValue))
    (info : VideoInfo) (thumb : jsstring) :
  truthy (assoc "url" fields) = true →
  validateURL w (assoc "url" fields) = true →
  getInfo w (assoc "url" fields) = inr info →
  last (thumbnails (videoDetails info)) = Some thumb →
  youtube_info w (JObj fields) fresh =
  (Ok tt,
   {| res := json_reply 200
        (JObj [("success", JBool true);
               ("title", JStr (title (videoDetails info)));
               ("thumbnail", JStr thumb);
               ("duration", JStr (lengthSeconds (videoDetails info)));
               ("author", JStr (author_name (videoDetails info)));
               ("qualities",
                JArr (quality_json <$> youtube_qualities w (formats info)))]);
      effects := [CallGetInfo (assoc "url" fields)] |}).
Proof.
  intros Ht Hv Hi Hl. run; settle. rewrite Ht, Hv. settle. rewrite Hi. settle.
  rewrite Hl. reflexivity.
Qed.

(** X8. A video without thumbnails cannot be described: reading the url of
    the last thumbnail throws, and the endpoint answers 500 although
    the extractor succeeded. *)
Theorem youtube_info_no_thumbnail (w : World) (fields : list (string * JsValue))
    (info : VideoInfo) :
  truthy (assoc "url" fields) = true →
  validateURL w (assoc "url" fields) = true →
  getInfo w (assoc "url" fields) = inr info →
  thumbnails (videoDetails info) = [] →
  youtube_info w (JObj fields) fresh =
  (Ok tt,
   {| res := json_reply 500
        (JObj [("error", JStr (js "Failed to fetch video information"));
               ("details", JStr (fault_message w UndefinedProperty))]);
      effects := [CallGetInfo (assoc "url" fields);
                  ConsoleError "YouTube Info Error:"
                    (EngineError UndefinedProperty)] |}).
Proof.
  intros Ht Hv Hi Hl. run; settle. rewrite Ht, Hv. settle. rewrite Hi. settle.
  rewrite Hl. reflexivity.
Qed.

(** X15. A url of the Instagram info endpoint that is truthy but neither a
    string nor an array (a number, true, an object) has no [includes]
    to call: the answer is 500, not 400, and the extractor is not
    called. *)
Theorem instagram_info_url_not_a_string (w : World)
    (fields : list (string * JsValue)) :
  truthy (assoc "url" fields) = true →
  (∀ s, assoc "url" fields ≠ JStr s) →
  (∀ items, assoc "url" fields ≠ JArr items) →
  instagram_info w (JObj fields) fresh =
  (Ok tt,
   {| res := json_reply 500
        (JObj [("error", JStr (js "Failed to fetch Instagram video"));
               ("details", JStr (fault_message w NotAFunction))]);
      effects := [ConsoleError "Instagram Info Error:"
                    (EngineError NotAFunction)] |}).
Proof.
  intros Ht Hs Ha. run; settle. rewrite Ht. settle.
  destruct (assoc "url" fields) eqn:Hu; try reflexivity.
  - by destruct (Hs s).
  - by destruct (Ha items).
Qed.

(** X16. An array is searched for an element equal to the string
    instagram.com: with one the whole array goes to the extractor,
    without one the answer is 400. *)
Theorem instagram_info_url_array (w : World) (fields : list (string * JsValue))
    (items : list JsValue) :
  assoc "url" fields = JArr items →
  (existsb (is_string (js "instagram.com")) items = true →
     CallInstagramGetUrl (JArr items)
     ∈ effects (instagram_info w (JObj fields) fresh).2) ∧
  (existsb (is_string (js "instagram.com")) items = false →
     bad_request (instagram_info w (JObj fields) fresh)).
Proof.
  intros Hu. split; intros Hi.
  - run; settle. rewrite Hu. cbv [truthy]. settle.
    cbv [value_includes mret M_ret]. rewrite Hi. settle.
    repeat branch; cbn; by left.
  - assert (instagram_info w (JObj fields) fresh =
            (Ok tt, {| res := json_reply 400
                         (JObj [("error", JStr (js "Invalid Instagram URL"))]);
                       effects := [] |})) as ->.
    { run; settle. rewrite Hu. cbv [truthy]. settle.
      cbv [value_includes mret M_ret]. rewrite Hi. reflexivity. }
    apply bad_request_reply; [done|]. by repeat constructor.
Qed.

(** X17. The thumbnail of the Instagram answer is the one the extractor
    gave when it is truthy, else the first URL of the list. An empty
    list is still a success: 200 with no qualities, and without a
    thumbnail when the extractor gave none. *)
Theorem instagram_info_thumbnail (w : World) (body u : JsValue)
    (r : InstagramResult) (l : list jsstring) :
  CallInstagramGetUrl u ∈ effects (instagram_info w body fresh).2 →
  instagramGetUrl w u = inr (Some r) →
  url_list r = Some l →
  ∃ st v,
    instagram_info w body fresh = (Ok tt, st) ∧
    statusCode (res st) = 200 ∧ json_of (res st) = Some v ∧
    (truthy (thumbnail r) = true → property "thumbnail" v = thumbnail r) ∧
    (truthy (thumbnail r) = false →
       ∀ first rest, l = first :: rest → property "thumbnail" v = JStr first) ∧
    (l = [] →
       property "success" v = JBool true ∧ property "qualities" v = JArr [] ∧
       (truthy (thumbnail r) = false → ¬ has_field "thumbnail" v)).
Proof.
  intros Hcall He Hl.
  apply instagram_info_calls in Hcall as (-> & Hn & Hb1 & Hb2).
  rewrite (instagram_info_found w body r l) by done.
  eexists _, _. split; [reflexivity|]. split; [done|]. split; [reflexivity|].
  unfold has_field. cbn -[truthy]. unfold js_or. split; [|split].
  - intros Ht. by rewrite Ht.
  - intros Ht first rest ->. by rewrite Ht.
  - intros ->. split; [done|]. split; [done|].
    intros Ht. rewrite Ht. by intros H.
Qed.

(** ** POST /api/instagram/download, case by case *)

(** X18. Without a truthy qualityUrl the answer is 400 and nothing is
    fetched. *)
Theorem instagram_download_rejects (w : World) (fields : list (string * JsValue)) :
  truthy (assoc "qualityUrl" fields) = false →
  instagram_download w (JObj fields) fresh =
  (Ok tt,
   {| res := json_reply 400 (JObj [("error", JStr (js "Quality URL is required"))]);
      effects := [] |}).
Proof. intros Ht. run; settle. rewrite Ht. reflexivity. Qed.

(** X19. Every truthy qualityUrl is fetched as it is, before anything else
    and whatever it points to: the handler tests nothing else. No
    extractor is ever called by this endpoint. *)
Theorem instagram_download_fetches (w : World) (fields : list (string * JsValue)) :
  truthy (assoc "qualityUrl" fields) = true →
  ∃ rest,
    effects (instagram_download w (JObj fields) fresh).2
    = CallFetch (assoc "qualityUrl" fields) :: rest ∧
    existsb extractor_call rest = false ∧
    Forall (fun e => ∀ v, e ≠ CallFetch v) rest.
Proof.
  intros Ht. run; settle. rewrite Ht. settle.
  change (forallb valid_header_char (js "video/mp4")) with true.
  change (forallb valid_header_char
            (js "attachment; filename=" ++ [dquote] ++ js "instagram_video.mp4"
             ++ [dquote])) with true.
  repeat branch; eexists; (split; [reflexivity|]); (split; [done|]);
    repeat constructor; done.
Qed.

(** X20. The three ways the fetch can fail, each answered 500 with the
    reason as details: the fetch rejects; the response is not ok (the
    body is then never read); reading the body rejects. *)
Theorem instagram_download_failures (w : World) (fields : list (string * JsValue)) :
  let q := assoc "qualityUrl" fields in
  let failed (e : Thrown) (calls : list Effect) : Result unit * HState :=
    (Ok tt,
     {| res := json_reply 500
                 (JObj [("error", JStr (js "Failed to download video"));
                        ("details", error_message w e)]);
        effects := calls ++ [ConsoleError "Instagram Download Error:" e] |}) in
  truthy q = true →
  (∀ e, fetch w q = inl e →
        instagram_download w (JObj fields) fresh = failed e [CallFetch q]) ∧
  (∀ r, fetch w q = inr r → ok r = false →
        instagram_download w (JObj fields) fresh
        = failed (NewError (js "Failed to fetch video")) [CallFetch q]) ∧
  (∀ r e, fetch w q = inr r → ok r = true → arrayBuffer r = inl e →
        instagram_download w (JObj fields) fresh
        = failed e [CallFetch q; CallArrayBuffer]).
Proof.
  intros q failed Ht. subst q failed. cbv beta.
  split; [|split].
  - intros e Hf. run; settle. rewrite Ht. settle. rewrite Hf. reflexivity.
  - intros r Hf Hok. run; settle. rewrite Ht. settle. rewrite Hf. settle.
    rewrite Hok. reflexivity.
  - intros r e Hf Hok Hb. run; settle. rewrite Ht. settle. rewrite Hf. settle.
    rewrite Hok. settle. rewrite Hb. reflexivity.
Qed.

(** X21. A fetch that succeeds is relayed whole: 200, the fixed file name
    instagram_video.mp4, type video/mp4, and as body exactly the bytes
    fetched, in one piece; the response is ended. *)
Theorem instagram_download_success (w : World) (fields : list (string * JsValue))
    (r : FetchResponse) (bytes : list Z) :
  truthy (assoc "qualityUrl" fields) = true →
  fetch w (assoc "qualityUrl" fields) = inr r →
  ok r = true → arrayBuffer r = inr bytes →
  instagram_download w (JObj fields) fresh =
  (Ok tt,
   {| res := {| statusCode := 200;
                headers := video_headers (js "instagram_video");
                headersSent := true; written := [Bytes bytes];
                finished := true |};
      effects := [CallFetch (assoc "qualityUrl" fields); CallArrayBuffer] |}).
Proof.
  intros Ht Hf Hok Hb. run; settle. rewrite Ht. settle. rewrite Hf. settle.
  rewrite Hok. settle. rewrite Hb. reflexivity.
Qed.

(** ** All POST endpoints *)

(** X22. A request without a body object ([req.body] undefined or null)
    makes the destructuring throw: all four POST endpoints answer 500
    and call nothing. *)
Theorem missing_body_is_500 (w : World) (b : JsValue) (route0 : Route) :
  b = JUndefined ∨ b = JNull →
  route0 ≠ Health →
  ∃ st v,
    serve w {| route := route0; body := b |} = (Ok tt, st) ∧
    statusCode (res st) = 500 ∧
    json_of (res st) = Some v ∧ has_field "error" v ∧
    property "details" v = JStr (fault_message w NotDestructurable) ∧
    Forall (fun e => ∃ l t, e = ConsoleError l t) (effects st).
Proof.
  intros Hb Hr. unfold serve, handler. cbn [route body].
  destruct Hb as [-> | ->], route0; try done;
    eexists _, _; (split; [reflexivity|]); cbn;
    repeat split; try done; repeat constructor; by eexists _, _.
Qed.

(** X9. The info endpoints always answer, with one JSON document, and
    status and body agree: 200 with success true and no error field,
    or 400, 404 (Instagram only) or 500 with an error field and no
    success field. The extractor is called at most once. *)
Theorem info_endpoints_answer (w : World) (body : JsValue) :
  (∃ st, youtube_info w body fresh = (Ok tt, st) ∧
         consistent_reply (res st) ∧
         statusCode (res st) ∈ [200; 400; 500] ∧
         (length (List.filter extractor_call (effects st)) ≤ 1)%nat) ∧
  (∃ st, instagram_info w body fresh = (Ok tt, st) ∧
         consistent_reply (res st) ∧
         statusCode (res st) ∈ [200; 400; 404; 500] ∧
         (length (List.filter extractor_call (effects st)) ≤ 1)%nat).
Proof.
  unfold consistent_reply, has_field. split.
  - destruct body; run; settle; repeat branch;
      (eexists; split; [reflexivity|]); cbn;
      (split; [eexists; split; [reflexivity|]; cbn;
               split; [done|]; split; [done|];
               first [left; done | right; done]|]);
      (split; [set_solver|]); cbn; lia.
  - destruct body; run; settle; repeat branch;
      (eexists; split; [reflexivity|]); cbn;
      (split; [eexists; split; [reflexivity|]; cbn;
               split; [done|]; split; [done|];
               first [left; done | right; done]|]);
      (split; [set_solver|]); cbn; lia.
Qed.

(** ** The further properties at sample inputs *)

Lemma resolution_of_plain_label_witness :
  getResolution (fun x => x) (sample_option "1080p60" 1) = 1080.
Proof.
  destruct (resolution_of_plain_label (fun x => x) (sample_option "1080p60" 1)
              [] (js "1080") (js "60")) as [_ Hres].
  - reflexivity.
  - constructor.
  - discriminate.
  - repeat constructor.
  - exact Hres.
Defined.

Lemma resolution_of_odd_label_witness :
  getResolution (fun x => x) (sample_option "hd720" 1) = 0.
Proof.
  apply resolution_of_odd_label. left.
  apply (bool_decide_unpack _). vm_compute. exact I.
Defined.

Lemma youtube_sample_starts :
  download_starts sample_world youtube_fields
    {| formats := []; videoDetails := sample_details |}.
Proof. repeat split. Defined.

Lemma youtube_download_completes_witness :
  ∃ st, youtube_download sample_world (JObj youtube_fields) fresh = (Ok tt, st) ∧
        written (res st) = [Bytes [0; 1; 2]; Bytes [3; 4]] ∧
        finished (res st) = true.
Proof.
  destruct (youtube_download_completes sample_world youtube_fields
              {| formats := []; videoDetails := sample_details |}
              youtube_sample_starts eq_refl)
    as (st & Hrun & _ & _ & Hw & _ & Hf & _).
  exists st. done.
Defined.

Lemma cut_stream_starts :
  download_starts
    (world_with (inr sample_info) cut_stream sample_found sample_fetched)
    youtube_fields sample_info.
Proof. repeat split. Defined.

Lemma youtube_download_stream_error_witness :
  ∃ st,
    youtube_download
      (world_with (inr sample_info) cut_stream sample_found sample_fetched)
      (JObj youtube_fields) fresh = (Ok tt, st) ∧
    statusCode (res st) = 200 ∧ finished (res st) = false.
Proof.
  destruct (youtube_download_stream_error
              (world_with (inr sample_info) cut_stream sample_found sample_fetched)
              youtube_fields sample_info (Rejected (JStr (js "aborted")))
              cut_stream_starts eq_refl)
    as (st & Hrun & _ & _ & Hcut).
  destruct Hcut as (Hc & _ & _ & Hf); [discriminate|].
  exists st. done.
Defined.

Lemma youtube_download_rejects_witness :
  statusCode (res (youtube_download sample_world (JObj []) fresh).2) = 400.
Proof.
  rewrite (youtube_download_rejects sample_world []); [reflexivity|].
  left. reflexivity.
Defined.

Lemma youtube_download_extractor_failure_witness :
  statusCode (res (youtube_download failing_world (JObj youtube_fields) fresh).2)
  = 500.
Proof.
  rewrite (youtube_download_extractor_failure failing_world youtube_fields
             (Rejected (JStr (js "Video unavailable"))));
    reflexivity.
Defined.

Lemma youtube_download_title_whitespace_witness :
  statusCode
    (res (youtube_download
            (world_with (inr two_line_info) sample_stream sample_found sample_fetched)
            (JObj youtube_fields) fresh).2) = 500.
Proof.
  rewrite (youtube_download_title_whitespace
             (world_with (inr two_line_info) sample_stream sample_found sample_fetched)
             youtube_fields two_line_info 10); try reflexivity.
  vm_compute. do 8 right. left.
Defined.

Lemma youtube_info_success_witness :
  ∃ v, json_of (res (youtube_info
                       (world_with (inr sample_info) sample_stream sample_found
                          sample_fetched)
                       (JObj youtube_fields) fresh).2) = Some v ∧
       property "thumbnail" v = JStr (js "https://i.ytimg.com/vi/x/default.jpg").
Proof.
  rewrite (youtube_info_success
             (world_with (inr sample_info) sample_stream sample_found sample_fetched)
             youtube_fields sample_info (js "https://i.ytimg.com/vi/x/default.jpg"));
    try reflexivity.
  eexists. split; reflexivity.
Defined.

Lemma youtube_info_no_thumbnail_witness :
  statusCode
    (res (youtube_info
            (world_with (inr bare_info) sample_stream sample_found sample_fetched)
            (JObj youtube_fields) fresh).2) = 500.
Proof.
  rewrite (youtube_info_no_thumbnail
             (world_with (inr bare_info) sample_stream sample_found sample_fetched)
             youtube_fields bare_info);
    reflexivity.
Defined.

Lemma instagram_info_url_not_a_string_witness :
  statusCode
    (res (instagram_info sample_world (JObj [("url", JNum (Finite 5 0))]) fresh).2)
  = 500.
Proof.
  rewrite (instagram_info_url_not_a_string sample_world
             [("url", JNum (Finite 5 0))]);
    [reflexivity|reflexivity|discriminate|discriminate].
Defined.

Lemma instagram_info_url_array_witness :
  CallInstagramGetUrl (JArr [JStr (js "instagram.com")])
  ∈ effects (instagram_info sample_world
               (JObj [("url", JArr [JStr (js "instagram.com")])]) fresh).2.
Proof.
  destruct (instagram_info_url_array sample_world
              [("url", JArr [JStr (js "instagram.com")])]
              [JStr (js "instagram.com")] eq_refl) as [Hpass _].
  exact (Hpass eq_refl).
Defined.

Lemma instagram_info_thumbnail_witness :
  ∃ st v,
    instagram_info sample_world instagram_body fresh = (Ok tt, st) ∧
    json_of (res st) = Some v ∧
    property "thumbnail" v = JStr (js "https://cdn.example/a.mp4").
Proof.
  destruct (instagram_info_thumbnail sample_world instagram_body
              (JStr (js "https://www.instagram.com/reel/xyz/"))
              {| url_list := Some [js "https://cdn.example/a.mp4";
                                   js "https://cdn.example/b.mp4";
                                   js "https://cdn.example/c.mp4"];
                 thumbnail := JUndefined |}
              [js "https://cdn.example/a.mp4"; js "https://cdn.example/b.mp4";
               js "https://cdn.example/c.mp4"])
    as (st & v & Hrun & _ & Hjson & _ & Hfirst & _).
  - vm_compute. left.
  - reflexivity.
  - reflexivity.
  - exists st, v. split; [done|]. split; [done|].
    exact (Hfirst eq_refl _ _ eq_refl).
Defined.

Lemma instagram_download_rejects_witness :
  statusCode
    (res (instagram_download sample_world
            (JObj [("url", JStr (js "https://www.instagram.com/reel/xyz/"))])
            fresh).2) = 400.
Proof.
  rewrite (instagram_download_rejects sample_world
             [("url", JStr (js "https://www.instagram.com/reel/xyz/"))]);
    reflexivity.
Defined.

Lemma instagram_download_fetches_witness :
  ∃ rest,
    effects (instagram_download sample_world
               (JObj [("qualityUrl", JStr (js "http://localhost/admin"))]) fresh).2
    = CallFetch (JStr (js "http://localhost/admin")) :: rest.
Proof.
  destruct (instagram_download_fetches sample_world
              [("qualityUrl", JStr (js "http://localhost/admin"))] eq_refl)
    as (rest & Hlog & _).
  exists rest. exact Hlog.
Defined.

Lemma instagram_download_failures_witness :
  statusCode (res (instagram_download failing_world (JObj instagram_fields) fresh).2)
  = 500.
Proof.
  destruct (instagram_download_failures failing_world instagram_fields eq_refl)
    as (Hreject & _ & _).
  rewrite (Hreject (Rejected (JStr (js "fetch failed"))) eq_refl). reflexivity.
Defined.

Lemma instagram_download_success_witness :
  written (res (instagram_download sample_world (JObj instagram_fields) fresh).2)
  = [Bytes [7; 8; 9]].
Proof.
  rewrite (instagram_download_success sample_world instagram_fields
             {| ok := true; arrayBuffer := inr [7; 8; 9] |} [7; 8; 9]);
    reflexivity.
Defined.

Lemma missing_body_is_500_witness :
  ∃ st, serve sample_world {| route := InstagramDownload; body := JUndefined |}
        = (Ok tt, st) ∧ statusCode (res st) = 500.
Proof.
  destruct (missing_body_is_500 sample_world JUndefined InstagramDownload)
    as (st & v & Hrun & Hc & _).
  - by left.
  - discriminate.
  - exists st. done.
Defined.
